(** * PolyglotStream: the translation console's coordination logic

    A shallow embedding of [src/App.tsx] (the [useDebounce] hook, the
    [performTranslation] callback and the effect that drives it), of
    [streamTranslation] from the Gemini service and of the declarations of
    [types.ts], followed by the properties of the request-id guard, the
    per-language accumulators, the streaming flag and the debouncer.

    JavaScript runs the component on one thread: every callback (an effect, a
    chunk delivered by [for await], the continuation of [Promise.all], a
    timer) runs to completion before the next one starts.  The embedding
    therefore is a state machine whose events are those callbacks; the order of
    the events in a trace is the wall-clock order, and theorems quantify over
    all traces. *)

From Stdlib Require Import String Ascii Sorted QArith.
From stdpp Require Import gmap list.

Local Open Scope Z_scope.

(** ** JavaScript strings *)

(** A string is its sequence of UTF-16 code units. *)
Definition jsstring : Type := list N.

(** A literal of the source, for texts within ASCII. *)
Definition js (s : string) : jsstring :=
  List.map N_of_ascii (list_ascii_of_string s).

(** WhiteSpace and LineTerminator code points of ECMAScript, the ones
    [String.prototype.trim] strips. *)
Definition isWhiteSpace (c : N) : bool :=
  ((9 <=? c) && (c <=? 13) || (c =? 32) || (c =? 160) || (c =? 5760)
   || (8192 <=? c) && (c <=? 8202) || (c =? 8232) || (c =? 8233)
   || (c =? 8239) || (c =? 8287) || (c =? 12288) || (c =? 65279))%N.

Fixpoint trimStart (s : jsstring) : jsstring :=
  match s with
  | c :: s' => if isWhiteSpace c then trimStart s' else s
  | [] => []
  end.

Definition trimEnd (s : jsstring) : jsstring := rev (trimStart (rev s)).

Definition trim (s : jsstring) : jsstring := trimEnd (trimStart s).

(** Truthiness of a string: the empty string is the only falsy one. *)
Definition truthy (s : jsstring) : bool :=
  match s with [] => false | _ :: _ => true end.

(** [!text.trim()] *)
Definition blank (text : jsstring) : bool := negb (truthy (trim text)).

(** ** types.ts *)

Inductive SupportedLanguage : Set :=
| CHINESE_TRADITIONAL
| ENGLISH
| SPANISH
| JAPANESE.

Global Instance SupportedLanguage_eq_dec : EqDecision SupportedLanguage.
Proof. solve_decision. Defined.

Definition TARGET_LANGUAGES : list SupportedLanguage :=
  [CHINESE_TRADITIONAL; ENGLISH; JAPANESE; SPANISH].

(** [Record<SupportedLanguage, string>]: an object with one string per
    member of the enumeration. *)
Record Translations : Type := mkTranslations {
  chineseTraditional : jsstring;
  english : jsstring;
  japanese : jsstring;
  spanish : jsstring
}.

(** [prev[lang]] *)
Definition get (lang : SupportedLanguage) (prev : Translations) : jsstring :=
  match lang with
  | CHINESE_TRADITIONAL => chineseTraditional prev
  | ENGLISH => english prev
  | JAPANESE => japanese prev
  | SPANISH => spanish prev
  end.

(** [{...prev, [lang]: v}] *)
Definition spread (prev : Translations) (lang : SupportedLanguage)
    (v : jsstring) : Translations :=
  match lang with
  | CHINESE_TRADITIONAL =>
      mkTranslations v (english prev) (japanese prev) (spanish prev)
  | ENGLISH =>
      mkTranslations (chineseTraditional prev) v (japanese prev) (spanish prev)
  | JAPANESE =>
      mkTranslations (chineseTraditional prev) (english prev) v (spanish prev)
  | SPANISH =>
      mkTranslations (chineseTraditional prev) (english prev) (japanese prev) v
  end.

(** The object literal of lines 26-29, 44-47, 59-62 and 104-107. *)
Definition noTranslations : Translations := mkTranslations [] [] [] [].

(** ** The Gemini service: [streamTranslation] *)

(** How a stream ends: the iteration finishes, or something throws (the
    request itself, or the iteration at some chunk). *)
Inductive Settlement : Set := Completed | Failed.

(** What the model answers to one [sendMessageStream]: the [text] property
    of each chunk ([None] when it is undefined), then how the stream ends. *)
Record Response : Type := mkResponse {
  chunkTexts : list (option jsstring);
  ending : Settlement
}.

(** [if (chunkText)]: the chunk's text when it is a non-empty string. *)
Definition accepted (chunkText : option jsstring) : option jsstring :=
  match chunkText with
  | Some c => if truthy c then Some c else None
  | None => None
  end.

Inductive PromiseResult : Set := Fulfilled | Rejected.

(** The observable behaviour of one call. *)
Record Call : Type := mkCall {
  requested : bool;               (* was [sendMessageStream] called *)
  onChunkCalls : list jsstring;   (* the arguments of [onChunk], in order *)
  logged : bool;                  (* [console.error("Translation error:")] *)
  result : PromiseResult
}.

Definition streamTranslation (text : jsstring)
    (targetLanguage : SupportedLanguage) (answer : Response) : Call :=
  if blank text then mkCall false [] false Fulfilled
  else
    let calls := omap accepted (chunkTexts answer) in
    match ending answer with
    | Completed => mkCall true calls false Fulfilled
    | Failed => mkCall true calls true Rejected
    end.

(** ** App.tsx: the component's state *)

(** Lines written to the console by the [catch] blocks. *)
Inductive LogLine : Type :=
| TranslationError                                 (* service, line 56 *)
| ErrorTranslatingTo (lang : SupportedLanguage)    (* App, line 79 *)
| OuterError.                                      (* App, line 87 *)

(** The three [useState] cells and the [useRef] of the component (a number
    that starts at 0 and is only ever incremented by one, hence an integer:
    such increments are exact up to 2^53), and what the runtime holds for
    it: for every call of [performTranslation] still
    suspended at [await Promise.all(promises)], the languages whose promise
    has not settled yet; the requests sent to the model; the console. *)
Record AppState : Type := mkApp {
  translations : Translations;
  isStreaming : bool;
  error : option jsstring;
  currentRequestId : Z;
  awaiting : gmap Z (list SupportedLanguage);
  sent : list (jsstring * SupportedLanguage);
  console : list LogLine
}.

Definition setTranslations (t : Translations) (s : AppState) : AppState :=
  mkApp t (isStreaming s) (error s) (currentRequestId s) (awaiting s)
    (sent s) (console s).

Definition setIsStreaming (b : bool) (s : AppState) : AppState :=
  mkApp (translations s) b (error s) (currentRequestId s) (awaiting s)
    (sent s) (console s).

Definition setError (e : option jsstring) (s : AppState) : AppState :=
  mkApp (translations s) (isStreaming s) e (currentRequestId s) (awaiting s)
    (sent s) (console s).

Definition setCurrentRequestId (n : Z) (s : AppState) : AppState :=
  mkApp (translations s) (isStreaming s) (error s) n (awaiting s)
    (sent s) (console s).

Definition setAwaiting (a : gmap Z (list SupportedLanguage)) (s : AppState)
    : AppState :=
  mkApp (translations s) (isStreaming s) (error s) (currentRequestId s) a
    (sent s) (console s).

Definition sendMessageStream (text : jsstring) (lang : SupportedLanguage)
    (s : AppState) : AppState :=
  mkApp (translations s) (isStreaming s) (error s) (currentRequestId s)
    (awaiting s) (sent s ++ [(text, lang)]) (console s).

Definition consoleError (lines : list LogLine) (s : AppState) : AppState :=
  mkApp (translations s) (isStreaming s) (error s) (currentRequestId s)
    (awaiting s) (sent s) (console s ++ lines).

(** The state after the first render: lines 22-39. *)
Definition initialApp : AppState :=
  mkApp noTranslations false None 0 ∅ [] [].

(** ** The request-id guard *)

(** [++currentRequestId.current] (line 53): the new id, and the state that
    holds it. *)
Definition beginGeneration (s : AppState) : Z * AppState :=
  let requestId := currentRequestId s + 1 in
  (requestId, setCurrentRequestId requestId s).

(** [currentRequestId.current === requestId] (lines 71, 88 and 92). *)
Definition isCurrent (requestId : Z) (s : AppState) : bool :=
  currentRequestId s =? requestId.

(** ** [performTranslation] *)

(** The callback handed to [streamTranslation] (lines 69-77), closed over
    [requestId] and [lang]. *)
Definition onChunk (requestId : Z) (lang : SupportedLanguage)
    (chunk : jsstring) (s : AppState) : AppState :=
  if isCurrent requestId s then
    let prev := translations s in
    setTranslations (spread prev lang (get lang prev ++ chunk)) s
  else s.

(** One turn of the [for await] loop in the service (lines 48-53), for the
    stream that was opened with that callback. *)
Definition deliver (requestId : Z) (lang : SupportedLanguage)
    (chunkText : option jsstring) (s : AppState) : AppState :=
  match accepted chunkText with
  | Some c => onChunk requestId lang c s
  | None => s
  end.

(** The synchronous part of a call of [streamTranslation]: the guard of
    line 13, then the request.  The boolean tells whether a stream is now
    open (the returned promise is still pending). *)
Definition openStream (text : jsstring) (lang : SupportedLanguage)
    (s : AppState) : AppState * bool :=
  if blank text then (s, false) else (sendMessageStream text lang s, true).

(** [TARGET_LANGUAGES.map(async (lang) => ...)] (line 67): every call
    runs up to its first [await]; the result is the list of the languages
    whose promise is pending. *)
Fixpoint openStreams (text : jsstring) (langs : list SupportedLanguage)
    (s : AppState) : AppState * list SupportedLanguage :=
  match langs with
  | [] => (s, [])
  | lang :: langs' =>
      let '(s1, opened) := openStream text lang s in
      let '(s2, pending) := openStreams text langs' s1 in
      (s2, if opened then lang :: pending else pending)
  end.

Definition failureMessage : jsstring :=
  js "One or more translations failed. Please try again.".

(** What runs when [Promise.all] settles: the [catch] block when it
    rejected (lines 86-90), then the [finally] block (lines 91-95). *)
Definition finish (requestId : Z) (all : PromiseResult) (s : AppState)
    : AppState :=
  let s1 :=
    match all with
    | Fulfilled => s
    | Rejected =>
        let s' := consoleError [OuterError] s in
        if isCurrent requestId s' then setError (Some failureMessage) s'
        else s'
    end in
  if isCurrent requestId s1 then setIsStreaming false s1 else s1.

(** [await Promise.all(promises)] (line 84): with nothing pending the
    continuation runs before any other callback. *)
Definition awaitAll (requestId : Z) (pending : list SupportedLanguage)
    (s : AppState) : AppState :=
  match pending with
  | [] => finish requestId Fulfilled s
  | _ :: _ => setAwaiting (<[requestId := pending]> (awaiting s)) s
  end.

Definition performTranslation (text : jsstring) (s : AppState) : AppState :=
  if blank text then
    setIsStreaming false (setTranslations noTranslations s)
  else
    let '(requestId, s1) := beginGeneration s in
    let s2 := setIsStreaming true s1 in
    let s3 := setError None s2 in
    let s4 := setTranslations noTranslations s3 in
    let '(s5, pending) := openStreams text TARGET_LANGUAGES s4 in
    awaitAll requestId pending s5.

(** The effect of lines 99-111, run when the debounced input changes. *)
Definition onDebouncedInput (debouncedInput : jsstring) (s : AppState)
    : AppState :=
  if truthy (trim debouncedInput) then performTranslation debouncedInput s
  else setIsStreaming false (setTranslations noTranslations s).

(** The promise of one language (lines 67-82) when its stream ends: a
    failure is logged by the service, rethrown, caught at line 78 and logged
    again, so the promise is fulfilled either way. *)
Definition languagePromise (lang : SupportedLanguage) (r : Settlement)
    (s : AppState) : AppState * PromiseResult :=
  match r with
  | Completed => (s, Fulfilled)
  | Failed =>
      (consoleError [TranslationError; ErrorTranslatingTo lang] s, Fulfilled)
  end.

Fixpoint removeFirst (lang : SupportedLanguage)
    (pending : list SupportedLanguage) : list SupportedLanguage :=
  match pending with
  | [] => []
  | l :: pending' =>
      if decide (l = lang) then pending' else l :: removeFirst lang pending'
  end.

(** The stream of [lang] opened by call [requestId] ends.  [Promise.all]
    rejects with the first rejected promise and is fulfilled when the last
    pending promise is. *)
Definition settle (requestId : Z) (lang : SupportedLanguage) (r : Settlement)
    (s : AppState) : AppState :=
  match awaiting s !! requestId with
  | None => s
  | Some pending =>
      if decide (lang ∈ pending) then
        let '(s1, res) := languagePromise lang r s in
        let done := setAwaiting (delete requestId (awaiting s1)) s1 in
        match res with
        | Rejected => finish requestId Rejected done
        | Fulfilled =>
            match removeFirst lang pending with
            | [] => finish requestId Fulfilled done
            | rest =>
                setAwaiting (<[requestId := rest]> (awaiting s1)) s1
            end
        end
      else s
  end.

(** ** The event loop *)

Inductive Event : Type :=
| DebouncedInput (text : jsstring)
| Chunk (requestId : Z) (lang : SupportedLanguage)
    (chunkText : option jsstring)
| Settle (requestId : Z) (lang : SupportedLanguage) (r : Settlement).

Definition step (s : AppState) (e : Event) : AppState :=
  match e with
  | DebouncedInput text => onDebouncedInput text s
  | Chunk requestId lang chunkText => deliver requestId lang chunkText s
  | Settle requestId lang r => settle requestId lang r s
  end.

Definition run (events : list Event) (s : AppState) : AppState :=
  foldl step s events.

(** Events of the streams only: no new input. *)
Definition isStreamEvent (e : Event) : bool :=
  match e with DebouncedInput _ => false | _ => true end.

(** The chunk texts the stream of ([requestId], [lang]) emits within the
    trace, in the order of the trace. *)
Definition emittedBy (requestId : Z) (lang : SupportedLanguage)
    (events : list Event) : list (option jsstring) :=
  omap (fun e =>
          match e with
          | Chunk g l chunkText =>
              if decide (g = requestId /\ l = lang) then Some chunkText
              else None
          | _ => None
          end) events.

(** Has the stream of ([requestId], [lang]) ended within the trace? *)
Definition settledIn (requestId : Z) (lang : SupportedLanguage)
    (events : list Event) : bool :=
  existsb (fun e =>
             match e with
             | Settle g l _ => bool_decide (g = requestId /\ l = lang)
             | _ => false
             end) events.

(** ** App.tsx: [useDebounce] *)

Section UseDebounce.
Context {T : Type} `{EqDecision T}.

(** A timer registered by [setTimeout]: the [value] its callback closed
    over and the instant it is due. *)
Record Timer : Type := mkTimer {
  captured : T;
  due : N
}.

(** One instance of the hook: the dependencies [value] and [delay] of the
    last run of the effect, the state cell, the timer [handler] that is
    still registered, the clock (milliseconds), the arguments of the calls
    of [setDebouncedValue] so far, and whether the consumer is mounted. *)
Record Debounce : Type := mkDebounce {
  value : T;
  delay : N;
  debouncedValue : T;
  handler : option Timer;
  now : N;
  emissions : list T;
  mounted : bool
}.

(** The effect body (lines 12-14) at the current instant. *)
Definition setTimeout (v : T) (d : N) (h : Debounce) : Debounce :=
  mkDebounce v d (debouncedValue h) (Some (mkTimer v (now h + d)%N))
    (now h) (emissions h) (mounted h).

(** The cleanup (line 15). *)
Definition clearTimeout (h : Debounce) : Debounce :=
  mkDebounce (value h) (delay h) (debouncedValue h) None (now h)
    (emissions h) (mounted h).

(** The first render at instant [t]: [useState(value)], then the effect. *)
Definition mount (v : T) (d : N) (t : N) : Debounce :=
  setTimeout v d (mkDebounce v d v None t [] true).

(** A later render with arguments [v] and [d]: the effect runs again, after
    the cleanup of its previous run, when a dependency changed. *)
Definition render (v : T) (d : N) (h : Debounce) : Debounce :=
  if mounted h then
    if decide (v = value h /\ d = delay h) then h
    else setTimeout v d (clearTimeout h)
  else h.

(** The timer callback (line 13). *)
Definition fire (tm : Timer) (h : Debounce) : Debounce :=
  mkDebounce (value h) (delay h) (captured tm) None (now h)
    (emissions h ++ [captured tm]) (mounted h).

Definition advance (dt : N) (h : Debounce) : Debounce :=
  mkDebounce (value h) (delay h) (debouncedValue h) (handler h)
    (now h + dt)%N (emissions h) (mounted h).

(** [dt] milliseconds pass: a registered timer that falls due fires. *)
Definition elapse (dt : N) (h : Debounce) : Debounce :=
  let h' := advance dt h in
  match handler h' with
  | Some tm => if (due tm <=? now h')%N then fire tm h' else h'
  | None => h'
  end.

(** The consumer goes away: the cleanup of the last effect runs. *)
Definition unmount (h : Debounce) : Debounce :=
  let h' := clearTimeout h in
  mkDebounce (value h') (delay h') (debouncedValue h') (handler h')
    (now h') (emissions h') false.

Inductive Tick : Type :=
| Render (v : T) (d : N)
| Elapse (dt : N)
| Unmount.

Definition tick (h : Debounce) (e : Tick) : Debounce :=
  match e with
  | Render v d => render v d h
  | Elapse dt => elapse dt h
  | Unmount => unmount h
  end.

Definition useDebounce (ticks : list Tick) (h : Debounce) : Debounce :=
  foldl tick h ticks.

(** A burst of changes: each one is given with the time since the
    previous tick. *)
Definition burst (d : N) (changes : list (N * T)) : list Tick :=
  flat_map (fun c => [Elapse (fst c); Render (snd c) d]) changes.

(** Every change of the burst differs from the value before it. *)
Fixpoint changing (v : T) (changes : list (N * T)) : Prop :=
  match changes with
  | [] => True
  | c :: changes' => snd c <> v /\ changing (snd c) changes'
  end.
End UseDebounce.

Arguments Timer : clear implicits.
Arguments Debounce : clear implicits.
Arguments Tick : clear implicits.

(** Line 36: [useDebounce(inputVal, 800)]. *)
Definition debounceDelay : N := 800.

(** The time a sequence of waits takes. *)
Definition total (waits : list N) : N := foldr N.add 0%N waits.

(** ** Vocabulary of the statements *)

(** [K] successive increments of the request id: the ids handed out, oldest
    first, and the state reached. *)
Fixpoint generations (K : nat) (s : AppState) : list Z * AppState :=
  match K with
  | O => ([], s)
  | S k =>
      let '(requestId, s1) := beginGeneration s in
      let '(ids, s2) := generations k s1 in
      (requestId :: ids, s2)
  end.

(** The events one stream produces, in emission order. *)
Definition streamEvents (requestId : Z) (lang : SupportedLanguage)
    (answer : Response) : list Event :=
  List.map (Chunk requestId lang) (chunkTexts answer)
  ++ [Settle requestId lang (ending answer)].

Definition isEventOf (requestId : Z) (lang : SupportedLanguage) (e : Event)
    : bool :=
  match e with
  | DebouncedInput _ => false
  | Chunk g l _ | Settle g l _ => bool_decide (g = requestId /\ l = lang)
  end.

Definition isChunkOf (requestId : Z) (e : Event) : bool :=
  match e with
  | Chunk g _ _ => bool_decide (g = requestId)
  | _ => false
  end.

(** What the rendering layer reads. *)
Definition visible (s : AppState) : Translations * bool * option jsstring :=
  (translations s, isStreaming s, error s).

(** [if (chunkText)] as a test. *)
Definition nonEmptyText (chunkText : option jsstring) : bool :=
  match chunkText with Some (_ :: _) => true | _ => false end.

(** States used as examples: texts accumulated by generation 1, and a
    state whose error slot is filled. *)
Definition accumulated : AppState :=
  run [Chunk 1 SPANISH (Some (js "Hola"));
       Chunk 1 ENGLISH (Some (js "Hello"))]
    (performTranslation (js "hello") initialApp).

Definition withError : AppState :=
  setError (Some failureMessage)
    (performTranslation (js "hello") initialApp).

(** ** Further vocabulary: requests and what a trace asks for *)

(** The texts for which the effect calls [performTranslation] past its
    guard: the non-blank inputs of the trace, oldest first. *)
Definition inputsOf (events : list Event) : list jsstring :=
  omap (fun e =>
          match e with
          | DebouncedInput text => if blank text then None else Some text
          | _ => None
          end) events.

(** The requests one generation sends: one per target language, in the
    order of [TARGET_LANGUAGES]. *)
Definition requestsFor (text : jsstring)
    : list (jsstring * SupportedLanguage) :=
  List.map (pair text) TARGET_LANGUAGES.

(** The streaming flag is covered: when it is up, the call that holds the
    current request id still waits for at least one stream, and only for
    streams of target languages. *)
Definition flagCovered (s : AppState) : Prop :=
  isStreaming s = true ->
  exists pending : list SupportedLanguage,
    awaiting s !! currentRequestId s = Some pending
    /\ pending <> []
    /\ pending ⊆ TARGET_LANGUAGES.

(** Two states that the rest of an execution cannot tell apart on screen:
    same texts, flag and error, same request id, and the same streams
    awaited by the call that holds it. *)
Definition sameOnScreen (s s' : AppState) : Prop :=
  visible s = visible s'
  /\ currentRequestId s = currentRequestId s'
  /\ awaiting s !! currentRequestId s = awaiting s' !! currentRequestId s'.

(** ** The component as a whole: [useDebounce] feeding the effect *)

(** Line 36 and lines 99-111 together: the hook instance that debounces
    [inputVal], and the state the effect works on. *)
Record Component : Type := mkComponent {
  hook : Debounce jsstring;
  appState : AppState
}.

(** The effect depends on [debouncedInput] ([performTranslation] never
    changes): it runs after a render in which [debouncedInput] differs from
    its value [before]. *)
Definition runEffect (before : jsstring) (h : Debounce jsstring)
    (a : AppState) : AppState :=
  if decide (debouncedValue h = before) then a
  else onDebouncedInput (debouncedValue h) a.

Inductive Happening : Type :=
| SetInputVal (v : jsstring)     (* [onChange={setInputVal}], line 140 *)
| Wait (dt : N)
| ChunkArrives (requestId : Z) (lang : SupportedLanguage)
    (chunkText : option jsstring)
| StreamEnds (requestId : Z) (lang : SupportedLanguage) (r : Settlement).

Definition happen (c : Component) (x : Happening) : Component :=
  match x with
  | SetInputVal v => mkComponent (render v debounceDelay (hook c)) (appState c)
  | Wait dt =>
      let h' := elapse dt (hook c) in
      mkComponent h' (runEffect (debouncedValue (hook c)) h' (appState c))
  | ChunkArrives requestId lang chunkText =>
      mkComponent (hook c) (deliver requestId lang chunkText (appState c))
  | StreamEnds requestId lang r =>
      mkComponent (hook c) (settle requestId lang r (appState c))
  end.

Definition live (happenings : list Happening) (c : Component) : Component :=
  foldl happen c happenings.

(** The first render, at instant 0: [useState('')], the hook's first run,
    and the effect's first run (with the empty input). *)
Definition firstRender : Component :=
  mkComponent (mount [] debounceDelay 0) (onDebouncedInput [] initialApp).

(** Typing: each change of the input after a pause. *)
Definition typing (changes : list (N * jsstring)) : list Happening :=
  flat_map (fun c => [Wait (fst c); SetInputVal (snd c)]) changes.

Section CaughtUp.
Context {T : Type}.

(** While the consumer is mounted, either a timer is pending, for the
    current input and due within one delay from now, or the debounced value
    is the current input; after the teardown no timer is left. *)
Definition caughtUp (h : Debounce T) : Prop :=
  if mounted h then
    match handler h with
    | Some tm =>
        captured tm = value h
        /\ (now h <= due tm)%N /\ (due tm <= now h + delay h)%N
    | None => debouncedValue h = value h
    end
  else handler h = None.
End CaughtUp.

(** ** OutputArea.tsx: what one panel shows *)

(** The parts of the panel that depend on its props and state: the speak
    button (with its [disabled] attribute) and the copy button, both inside
    [translation && (...)]; the loading dots; the paragraph with the text;
    the hint "Waiting for input...". *)
Record OutputView : Type := mkOutputView {
  speakButton : option bool;
  copyButton : bool;
  loadingDots : bool;
  paragraph : option jsstring;
  waitingHint : bool
}.

Definition OutputArea (translation : jsstring) (isLoading isSpeaking : bool)
    : OutputView :=
  mkOutputView
    (if truthy translation then Some isSpeaking else None)
    (truthy translation)
    (isLoading && negb (truthy translation))
    (if truthy translation then Some translation else None)
    (if truthy translation then false else negb isLoading).

(** App.tsx, lines 148-155: the panel of one target language. *)
Definition panel (lang : SupportedLanguage) (isSpeaking : bool)
    (s : AppState) : OutputView :=
  OutputArea (get lang (translations s)) (isStreaming s) isSpeaking.

(** How many of the three alternative contents of the panel's body are
    rendered. *)
Definition bodyParts (v : OutputView) : nat :=
  Nat.b2n (loadingDots v)
  + Nat.b2n (bool_decide (is_Some (paragraph v)))
  + Nat.b2n (waitingHint v).

(** ** types.ts: the values of the enumeration *)

Definition languageName (language : SupportedLanguage) : jsstring :=
  match language with
  | CHINESE_TRADITIONAL => js "Traditional Chinese"
  | ENGLISH => js "English"
  | SPANISH => js "Spanish"
  | JAPANESE => js "Japanese"
  end.

(** ** ttsService.ts *)

Definition VOICE_MAP (language : SupportedLanguage) : jsstring :=
  match language with
  | CHINESE_TRADITIONAL => js "Puck"
  | ENGLISH => js "Kore"
  | JAPANESE => js "Kore"
  | SPANISH => js "Charon"
  end.

(** [a || b] on strings. *)
Definition orElse (a b : jsstring) : jsstring := if truthy a then a else b.

(** What the module asks of the browser: [atob] ([None] when it throws on
    input that is not base64), and whether [createBuffer] accepts a number of
    channels, a length and a sample rate. *)
Record Browser : Type := mkBrowser {
  atob : jsstring -> option jsstring;
  createBuffer : nat -> nat -> N -> bool
}.

(** Storing a number into a [Uint8Array]. *)
Definition uint8 (c : N) : N := (c mod 256)%N.

(** Lines 15-23. *)
Definition decode (browser : Browser) (base64 : jsstring) : option (list N) :=
  match atob browser base64 with
  | Some binaryString => Some (List.map uint8 binaryString)
  | None => None
  end.

(** One element of an [Int16Array] laid over two bytes (little-endian, as
    on every platform browsers run on). *)
Definition int16 (lo hi : N) : Z :=
  let u := Z.of_N lo + 256 * Z.of_N hi in
  if u <? 32768 then u else u - 65536.

Fixpoint int16s (bytes : list N) : list Z :=
  match bytes with
  | lo :: hi :: rest => int16 lo hi :: int16s rest
  | _ => []
  end.

(** [new Int16Array(data.buffer)], for a [Uint8Array] that spans its
    buffer (every one this module makes does): a [RangeError] when the byte
    length is odd. *)
Definition Int16Array (data : list N) : option (list Z) :=
  if Nat.even (length data) then Some (int16s data) else None.

(** [x / 32768.0], stored into a [Float32Array]: for a 16-bit [x] the
    quotient is a binary fraction that single precision holds exactly. *)
Definition toFloat (x : Z) : Q := Qmake x 32768.

(** Lines 26-44: the samples of each channel of the buffer.  A frame count
    that is not whole is truncated by [createBuffer], and the writes of the
    loop beyond it are dropped. *)
Definition decodeAudioData (browser : Browser) (data : list N)
    (sampleRate : N) (numChannels : nat) : option (list (list Q)) :=
  match Int16Array data with
  | None => None
  | Some dataInt16 =>
      let frameCount := (length dataInt16 / numChannels)%nat in
      if createBuffer browser numChannels frameCount sampleRate then
        Some (List.map
                (fun channel =>
                   List.map
                     (fun i =>
                        toFloat
                          (nth (i * numChannels + channel)%nat dataInt16 0))
                     (seq 0 frameCount))
                (seq 0 numChannels))
      else None
  end.

(** The module's variable [audioContext] (line 46: is it set), and what the
    module has done so far: contexts constructed, requests made (voice and
    prompt), buffers started, lines written by line 112. *)
Record Tts : Type := mkTts {
  audioContext : bool;
  constructed : nat;
  requests : list (jsstring * jsstring);
  played : list (list (list Q));
  ttsErrors : nat
}.

Definition noTts : Tts := mkTts false 0 [] [] 0.

(** What happens outside the module during one call: does the constructor
    of [AudioContext] succeed, is the context suspended when line 56 looks,
    does [resume] succeed, and what [generateContent] answers: [None] when it
    rejects, otherwise the [inlineData.data] of the first part of the first
    candidate ([None] when a link of the optional chain is missing). *)
Record TtsWorld : Type := mkTtsWorld {
  constructs : bool;
  suspended : bool;
  resumes : bool;
  generated : option (option jsstring)
}.

(** Lines 62-80. *)
Definition promptText (text : jsstring) (language : SupportedLanguage)
    : jsstring :=
  match language with
  | JAPANESE => js "Speak the following Japanese text naturally: " ++ text
  | CHINESE_TRADITIONAL =>
      js "Speak the following Traditional Chinese text naturally: " ++ text
  | SPANISH => js "Speak the following Spanish text naturally: " ++ text
  | ENGLISH => js "Speak the following English text naturally: " ++ text
  end.

(** Line 60. *)
Definition voiceName (language : SupportedLanguage) : jsstring :=
  orElse (VOICE_MAP language) (js "Kore").

(** The [catch] block, lines 111-114. *)
Definition ttsFail (t : Tts) : Tts * PromiseResult :=
  (mkTts (audioContext t) (constructed t) (requests t) (played t)
     (S (ttsErrors t)), Rejected).

(** Lines 48-115, one call from start to settlement; the calls of lines
    106-109 on the context are taken not to throw. *)
Definition playTextToSpeech (browser : Browser) (text : jsstring)
    (language : SupportedLanguage) (w : TtsWorld) (t : Tts)
    : Tts * PromiseResult :=
  if blank text then (t, Fulfilled)
  else
    let ready :=
      if audioContext t then Some t
      else if constructs w then
        Some (mkTts true (S (constructed t)) (requests t) (played t)
                (ttsErrors t))
      else None in
    match ready with
    | None => ttsFail t
    | Some t1 =>
        if suspended w && negb (resumes w) then ttsFail t1
        else
          let t2 :=
            mkTts (audioContext t1) (constructed t1)
              (requests t1 ++ [(voiceName language, promptText text language)])
              (played t1) (ttsErrors t1) in
          match generated w with
          | None => ttsFail t2
          | Some base64Audio =>
              match accepted base64Audio with
              | None => ttsFail t2
              | Some b =>
                  match decode browser b with
                  | None => ttsFail t2
                  | Some audioBytes =>
                      match decodeAudioData browser audioBytes 24000 1 with
                      | None => ttsFail t2
                      | Some audioBuffer =>
                          (mkTts (audioContext t2) (constructed t2)
                             (requests t2) (played t2 ++ [audioBuffer])
                             (ttsErrors t2), Fulfilled)
                      end
                  end
              end
          end
    end.

(** A series of calls, one after the other. *)
Definition speakAll (browser : Browser)
    (calls : list (jsstring * SupportedLanguage * TtsWorld)) (t : Tts)
    : Tts :=
  foldl (fun t call =>
           (playTextToSpeech browser call.1.1 call.1.2 call.2 t).1) t calls.

(** A buffer as [playTextToSpeech] makes them: one channel, every sample
    in [-1, 1). *)
Definition monoInRange (buffer : list (list Q)) : Prop :=
  length buffer = 1%nat
  /\ List.Forall (List.Forall (fun q => (- (1) <= q)%Q /\ (q < 1)%Q)) buffer.

(** The calls that get past the guard of line 49. *)
Definition spoken (calls : list (jsstring * SupportedLanguage * TtsWorld))
    : list (jsstring * SupportedLanguage * TtsWorld) :=
  List.filter (fun call => negb (blank call.1.1)) calls.

(** ** OutputArea.tsx: the speak button *)

(** One panel: its state cell, the call of [playTextToSpeech] that
    [handleSpeak] is suspended on ([translation] and [targetLang] of the
    render in which the button was clicked), the service module as this
    panel drives it, and the lines written by line 78. *)
Record Panel : Type := mkPanel {
  isSpeaking : bool;
  awaited : option (jsstring * SupportedLanguage);
  tts : Tts;
  failedToPlay : nat
}.

Definition idlePanel : Panel := mkPanel false None noTts 0.

(** Lines 71-76, up to the [await]. *)
Definition handleSpeak (translation : jsstring)
    (targetLang : SupportedLanguage) (p : Panel) : Panel :=
  if negb (truthy translation) || isSpeaking p then p
  else mkPanel true (Some (translation, targetLang)) (tts p) (failedToPlay p).

(** Lines 76-81: the awaited call settles. *)
Definition playbackSettles (browser : Browser) (w : TtsWorld) (p : Panel)
    : Panel :=
  match awaited p with
  | None => p
  | Some (translation, targetLang) =>
      let '(t, r) := playTextToSpeech browser translation targetLang w (tts p)
      in
      mkPanel false None t
        (match r with
         | Fulfilled => failedToPlay p
         | Rejected => S (failedToPlay p)
         end)
  end.

Inductive PanelEvent : Type :=
| ClickSpeak (translation : jsstring) (targetLang : SupportedLanguage)
| PlaybackSettles (w : TtsWorld).

Definition panelStep (browser : Browser) (p : Panel) (e : PanelEvent)
    : Panel :=
  match e with
  | ClickSpeak translation targetLang => handleSpeak translation targetLang p
  | PlaybackSettles w => playbackSettles browser w p
  end.

Definition runPanel (browser : Browser) (events : list PanelEvent)
    (p : Panel) : Panel :=
  foldl (panelStep browser) p events.

Definition isSettle (e : PanelEvent) : bool :=
  match e with PlaybackSettles _ => true | ClickSpeak _ _ => false end.

(** ** geminiService.ts: [transcribeAudio] *)

(** Lines 61-88, given what [generateContent] does: [None] when it rejects
    (logged and rethrown), otherwise the [text] of the result.  The value is
    [result.text || ""]. *)
Definition transcribeAudio (answer : option (option jsstring))
    : option jsstring :=
  match answer with
  | None => None
  | Some text => Some (match accepted text with Some t => t | None => [] end)
  end.

(** ** InputArea.tsx *)

(** The state of the input area together with the [inputVal] of the
    parent, which it receives as [value] and sets through [onChange]; every
    recorder made so far, each with the [localValue] that its [onstop]
    handler closed over; and [mediaRecorderRef.current]. *)
Record InputArea : Type := mkInputArea {
  inputVal : jsstring;
  localValue : jsstring;
  isRecording : bool;
  isTranscribing : bool;
  recorders : list jsstring;
  mediaRecorderRef : option nat
}.

Definition initialInput : InputArea := mkInputArea [] [] false false [] None.

(** [setLocalValue(v); onChange(v)]: lines 26-27, 31-32 and 68-69. *)
Definition setBoth (v : jsstring) (s : InputArea) : InputArea :=
  mkInputArea v v (isRecording s) (isTranscribing s) (recorders s)
    (mediaRecorderRef s).

Definition setIsRecording (b : bool) (s : InputArea) : InputArea :=
  mkInputArea (inputVal s) (localValue s) b (isTranscribing s) (recorders s)
    (mediaRecorderRef s).

Definition setIsTranscribing (b : bool) (s : InputArea) : InputArea :=
  mkInputArea (inputVal s) (localValue s) (isRecording s) b (recorders s)
    (mediaRecorderRef s).

(** Line 67. *)
Definition withTranscript (localValue text : jsstring) : jsstring :=
  if truthy localValue then localValue ++ js " " ++ text else text.

(** Lines 38-85, when the microphone is granted (the wait for
    [getUserMedia] is taken together with the click). *)
Definition startRecording (s : InputArea) : InputArea :=
  mkInputArea (inputVal s) (localValue s) true (isTranscribing s)
    (recorders s ++ [localValue s]) (Some (length (recorders s))).

(** Lines 87-92; the recorder's [onstop] comes later, as an event. *)
Definition stopRecording (s : InputArea) : InputArea :=
  match mediaRecorderRef s with
  | Some _ => if isRecording s then setIsRecording false s else s
  | None => s
  end.

Inductive InputEvent : Type :=
| Typed (newValue : jsstring)                (* [handleChange] *)
| ClearClicked                               (* [handleClear] *)
| MicClicked (granted : bool)                (* [toggleRecording] *)
| RecorderStopped (recorder : nat) (readerThrows : bool)
                                             (* [onstop], lines 51-77 *)
| Transcribed (recorder : nat) (answer : option (option jsstring)).
                                             (* [onloadend], lines 61-72 *)

Definition inputStep (s : InputArea) (e : InputEvent) : InputArea :=
  match e with
  | Typed newValue => setBoth newValue s
  | ClearClicked => setBoth [] s
  | MicClicked granted =>
      if isRecording s then stopRecording s
      else if granted then startRecording s else s
  | RecorderStopped recorder readerThrows =>
      match recorders s !! recorder with
      | Some _ =>
          if readerThrows then setIsTranscribing false s
          else setIsTranscribing true s
      | None => s
      end
  | Transcribed recorder answer =>
      match recorders s !! recorder with
      | Some captured =>
          match transcribeAudio answer with
          | None => s
          | Some text =>
              setIsTranscribing false
                (if truthy text then setBoth (withTranscript captured text) s
                 else s)
          end
      | None => s
      end
  end.

Definition runInput (events : list InputEvent) (s : InputArea) : InputArea :=
  foldl inputStep s events.

(** The events that can reach [setIsTranscribing(false)]: a transcription
    that completes, whatever its text (line 71), and a recorder stop during
    which setting up the [FileReader] throws (line 75). *)
Definition completes (e : InputEvent) : bool :=
  match e with
  | Transcribed _ (Some _) => true
  | RecorderStopped _ readerThrows => readerThrows
  | _ => false
  end.

(** * Properties *)

(** ** Strings *)

Lemma trimStart_nil_iff (s : jsstring) :
  trimStart s = [] <-> forallb isWhiteSpace s = true.
Proof.
  induction s as [|c s IH]; simpl; [done|].
  destruct (isWhiteSpace c); simpl; [exact IH|].
  split; discriminate.
Qed.

Lemma trimStart_head (s : jsstring) (c : N) (s' : jsstring) :
  trimStart s = c :: s' -> isWhiteSpace c = false.
Proof.
  induction s as [|x s IH]; simpl; [discriminate|].
  destruct (isWhiteSpace x) eqn:Hx; [exact IH|].
  intros [= -> _]. exact Hx.
Qed.

(** [!text.trim()] holds exactly of the empty string and of the strings
    made of white space only. *)
Lemma blank_spec (text : jsstring) :
  blank text = forallb isWhiteSpace text.
Proof.
  unfold blank, trim, trimEnd.
  destruct (forallb isWhiteSpace text) eqn:Hall.
  - apply trimStart_nil_iff in Hall. rewrite Hall. reflexivity.
  - destruct (trimStart text) as [|c rest] eqn:Hts.
    + apply trimStart_nil_iff in Hts. congruence.
    + apply trimStart_head in Hts.
      destruct (trimStart (rev (c :: rest))) as [|y ys] eqn:Hr.
      * apply trimStart_nil_iff in Hr.
        rewrite forallb_forall in Hr.
        specialize (Hr c). rewrite <- in_rev in Hr.
        rewrite Hr in Hts; [discriminate | by left].
      * destruct (rev (y :: ys)) eqn:Hrev; [|reflexivity].
        apply (f_equal (@length N)) in Hrev.
        rewrite length_rev in Hrev. discriminate.
  Qed.

Lemma truthy_trim (text : jsstring) : truthy (trim text) = negb (blank text).
Proof. unfold blank. by rewrite negb_involutive. Qed.

(** ** Field-by-field reading of the steps *)

Lemma get_spread_eq (prev : Translations) (lang : SupportedLanguage)
    (v : jsstring) :
  get lang (spread prev lang v) = v.
Proof. by destruct lang. Qed.

Lemma get_spread_ne (prev : Translations) (lang other : SupportedLanguage)
    (v : jsstring) :
  other <> lang -> get other (spread prev lang v) = get other prev.
Proof. by destruct lang, other. Qed.

Lemma isCurrent_true (requestId : Z) (s : AppState) :
  isCurrent requestId s = true <-> requestId = currentRequestId s.
Proof. unfold isCurrent. rewrite Z.eqb_eq. split; congruence. Qed.

Lemma isCurrent_false (requestId : Z) (s : AppState) :
  isCurrent requestId s = false <-> requestId <> currentRequestId s.
Proof. unfold isCurrent. rewrite Z.eqb_neq. split; congruence. Qed.

Lemma performTranslation_blank (text : jsstring) (s : AppState) :
  blank text = true ->
  performTranslation text s
  = mkApp noTranslations false (error s) (currentRequestId s) (awaiting s)
      (sent s) (console s).
Proof. intros Hb. unfold performTranslation. by rewrite Hb. Qed.

Lemma performTranslation_nonblank (text : jsstring) (s : AppState) :
  blank text = false ->
  performTranslation text s
  = mkApp noTranslations true None (currentRequestId s + 1)
      (<[currentRequestId s + 1 := TARGET_LANGUAGES]> (awaiting s))
      (sent s ++ List.map (pair text) TARGET_LANGUAGES) (console s).
Proof.
  intros Hb. unfold performTranslation. rewrite Hb.
  cbn [beginGeneration TARGET_LANGUAGES openStreams].
  unfold openStream. rewrite Hb.
  cbn -[Z.add insert]. unfold setAwaiting. cbn -[Z.add insert].
  by rewrite <- !app_assoc.
Qed.

Lemma onDebouncedInput_blank (text : jsstring) (s : AppState) :
  blank text = true ->
  onDebouncedInput text s
  = mkApp noTranslations false (error s) (currentRequestId s) (awaiting s)
      (sent s) (console s).
Proof.
  intros Hb. unfold onDebouncedInput. rewrite truthy_trim, Hb. reflexivity.
Qed.

Lemma onDebouncedInput_nonblank (text : jsstring) (s : AppState) :
  blank text = false ->
  onDebouncedInput text s = performTranslation text s.
Proof.
  intros Hb. unfold onDebouncedInput. by rewrite truthy_trim, Hb.
Qed.

(** ** The request-id guard (C6) *)

Lemma generations_ids (K : nat) (s : AppState) :
  (generations K s).1
  = List.map (fun i => currentRequestId s + Z.of_nat i) (seq 1 K).
Proof.
  revert s. induction K as [|K IH]; intros s; [reflexivity|].
  cbn [generations beginGeneration].
  destruct (generations K _) as [ids s2] eqn:Hg.
  pose proof (IH (setCurrentRequestId (currentRequestId s + 1) s)) as IH'.
  rewrite Hg in IH'. cbn [fst currentRequestId setCurrentRequestId] in *.
  rewrite IH'. cbn [seq List.map]. f_equal.
  rewrite <- (seq_shift K 1), map_map.
  apply map_ext. intros i. lia.
Qed.

Lemma generations_current (K : nat) (s : AppState) :
  currentRequestId (generations K s).2 = currentRequestId s + Z.of_nat K.
Proof.
  revert s. induction K as [|K IH]; intros s.
  - cbn. lia.
  - cbn [generations beginGeneration].
    destruct (generations K _) as [ids s2] eqn:Hg.
    pose proof (IH (setCurrentRequestId (currentRequestId s + 1) s)) as IH'.
    rewrite Hg in IH'. cbn [snd currentRequestId setCurrentRequestId] in *.
    lia.
Qed.

Lemma offsets_sorted (base : Z) (start K : nat) :
  StronglySorted Z.lt
    (List.map (fun i => base + Z.of_nat i) (seq start K)).
Proof.
  revert start. induction K as [|K IH]; intros start; cbn [seq List.map].
  - constructor.
  - constructor; [apply IH|].
    apply List.Forall_forall. intros x Hx.
    apply in_map_iff in Hx as (i & <- & Hi).
    apply in_seq in Hi. lia.
Qed.

Lemma offsets_last (base : Z) (K : nat) :
  List.last (List.map (fun i => base + Z.of_nat i) (seq 1 K)) base
  = base + Z.of_nat K.
Proof.
  destruct K as [|K]; [cbn; lia|].
  rewrite seq_S, map_app. cbn [List.map].
  rewrite last_last. lia.
Qed.

(** C6.  [K] calls of [beginGeneration] hand out [K] identifiers, each
    greater than the one before it (and than the id current before the first
    call), and [isCurrent] accepts an id exactly when it is the last one
    handed out. *)
Theorem generation_monotonicity (K : nat) (s : AppState) :
  let ids := (generations K s).1 in
  let s' := (generations K s).2 in
  length ids = K
  /\ StronglySorted Z.lt (currentRequestId s :: ids)
  /\ forall id : Z,
       isCurrent id s' = true <-> id = List.last ids (currentRequestId s).
Proof.
  cbn zeta. rewrite generations_ids. split; [|split].
  - by rewrite length_map, length_seq.
  - constructor; [apply offsets_sorted|].
    apply List.Forall_forall. intros x Hx.
    apply in_map_iff in Hx as (i & <- & Hi).
    apply in_seq in Hi. lia.
  - intros id. rewrite isCurrent_true, generations_current, offsets_last.
    reflexivity.
Qed.

(** ** What the steps leave alone *)

Ltac settle_cases :=
  unfold settle, languagePromise, finish, isCurrent;
  repeat (cbn [translations isStreaming error currentRequestId awaiting sent
               console setAwaiting setIsStreaming setError consoleError];
          match goal with
          | |- context [match ?m !! ?k with _ => _ end] => destruct (m !! k)
          | |- context [decide (?l ∈ ?p)] => destruct (decide (l ∈ p))
          | |- context [match ?r with Completed => _ | Failed => _ end] =>
              destruct r
          | |- context [match removeFirst ?l ?p with _ => _ end] =>
              destruct (removeFirst l p)
          | |- context [?a =? ?b] => destruct (Z.eqb_spec a b)
          end);
  cbn [translations isStreaming error currentRequestId awaiting sent
       console setAwaiting setIsStreaming setError consoleError].

Lemma settle_translations requestId lang r s :
  translations (settle requestId lang r s) = translations s.
Proof. settle_cases; reflexivity. Qed.

Lemma settle_currentRequestId requestId lang r s :
  currentRequestId (settle requestId lang r s) = currentRequestId s.
Proof. settle_cases; reflexivity. Qed.

Lemma settle_error requestId lang r s :
  error (settle requestId lang r s) = error s.
Proof. settle_cases; reflexivity. Qed.

Lemma settle_sent requestId lang r s :
  sent (settle requestId lang r s) = sent s.
Proof. settle_cases; reflexivity. Qed.

Lemma settle_stale_isStreaming requestId lang r s :
  currentRequestId s <> requestId ->
  isStreaming (settle requestId lang r s) = isStreaming s.
Proof. intros Hne. settle_cases; congruence. Qed.

Lemma deliver_cases requestId lang chunkText s :
  deliver requestId lang chunkText s = s
  \/ exists c, accepted chunkText = Some c
       /\ currentRequestId s = requestId
       /\ deliver requestId lang chunkText s
          = setTranslations
              (spread (translations s) lang
                 (get lang (translations s) ++ c)) s.
Proof.
  unfold deliver, onChunk, isCurrent.
  destruct (accepted chunkText) as [c|]; [|by left].
  destruct (Z.eqb_spec (currentRequestId s) requestId); [|by left].
  right. by exists c.
Qed.

Lemma deliver_currentRequestId requestId lang chunkText s :
  currentRequestId (deliver requestId lang chunkText s) = currentRequestId s.
Proof.
  destruct (deliver_cases requestId lang chunkText s)
    as [-> | (c & _ & _ & ->)]; reflexivity.
Qed.

Lemma deliver_frame requestId lang chunkText s :
  isStreaming (deliver requestId lang chunkText s) = isStreaming s
  /\ error (deliver requestId lang chunkText s) = error s
  /\ awaiting (deliver requestId lang chunkText s) = awaiting s
  /\ sent (deliver requestId lang chunkText s) = sent s.
Proof.
  destruct (deliver_cases requestId lang chunkText s)
    as [-> | (c & _ & _ & ->)]; done.
Qed.

Lemma deliver_stale requestId lang chunkText s :
  currentRequestId s <> requestId ->
  deliver requestId lang chunkText s = s.
Proof.
  intros Hne.
  destruct (deliver_cases requestId lang chunkText s)
    as [-> | (c & _ & Heq & _)]; [reflexivity | contradiction].
Qed.

Lemma accepted_nonempty chunkText c :
  accepted chunkText = Some c -> c <> [] /\ chunkText = Some c.
Proof.
  destruct chunkText as [[|x xs]|]; cbn; intros [= <-]; done.
Qed.

Lemma run_app events1 events2 s :
  run (events1 ++ events2) s = run events2 (run events1 s).
Proof. apply foldl_app. Qed.

Lemma run_cons e events s : run (e :: events) s = run events (step s e).
Proof. reflexivity. Qed.

(** The request id never decreases. *)
Lemma step_currentRequestId_le s e :
  currentRequestId s <= currentRequestId (step s e).
Proof.
  destruct e as [text|g lang c|g lang r]; cbn [step].
  - destruct (blank text) eqn:Hb.
    + rewrite onDebouncedInput_blank by done. cbn. lia.
    + rewrite onDebouncedInput_nonblank, performTranslation_nonblank by done.
      cbn. lia.
  - rewrite deliver_currentRequestId. lia.
  - rewrite settle_currentRequestId. lia.
Qed.

Lemma run_currentRequestId_le events s :
  currentRequestId s <= currentRequestId (run events s).
Proof.
  revert s. induction events as [|e events IH]; intros s; [cbn; lia|].
  rewrite run_cons. pose proof (step_currentRequestId_le s e).
  specialize (IH (step s e)). lia.
Qed.

Lemma step_stream_currentRequestId s e :
  isStreamEvent e = true -> currentRequestId (step s e) = currentRequestId s.
Proof.
  destruct e; [discriminate|..]; intros _; cbn [step].
  - apply deliver_currentRequestId.
  - apply settle_currentRequestId.
Qed.

(** No step ever fills the error slot: the promise of a language is
    fulfilled whether its stream completes or fails, so [Promise.all] is
    never rejected and line 89 is not reached. *)
Lemma step_error_null s e : error s = None -> error (step s e) = None.
Proof.
  intros Hnull. destruct e as [text|g lang c|g lang r]; cbn [step].
  - destruct (blank text) eqn:Hb.
    + by rewrite onDebouncedInput_blank.
    + by rewrite onDebouncedInput_nonblank, performTranslation_nonblank.
  - by rewrite (proj1 (proj2 (deliver_frame g lang c s))).
  - by rewrite settle_error.
Qed.

Lemma run_error_null events s : error s = None -> error (run events s) = None.
Proof.
  revert s. induction events as [|e events IH]; intros s Hnull; [done|].
  rewrite run_cons. apply IH. by apply step_error_null.
Qed.

(** ** The service's callback discipline (C9) *)

Lemma omap_accepted (chunks : list (option jsstring)) :
  List.map Some (omap accepted chunks) = List.filter nonEmptyText chunks.
Proof.
  induction chunks as [|[[|x xs]|] chunks IH]; cbn; [done|done| |done].
  by rewrite IH.
Qed.

(** C9.  [streamTranslation] calls [onChunk] with non-empty strings only:
    the calls are, in order, the chunk texts that are present and not empty;
    a chunk without text or with an empty text is skipped without any effect
    on the component; and for blank input the call returns at once: no
    request, no callback, a fulfilled promise. *)
Theorem only_nonempty_chunks (text : jsstring) (lang : SupportedLanguage)
    (answer : Response) (requestId : Z) (s : AppState) :
  let call := streamTranslation text lang answer in
  List.Forall (fun c => c <> []) (onChunkCalls call)
  /\ List.map Some (onChunkCalls call)
     = (if forallb isWhiteSpace text then []
        else List.filter nonEmptyText (chunkTexts answer))
  /\ (if forallb isWhiteSpace text then call = mkCall false [] false Fulfilled
      else requested call = true)
  /\ deliver requestId lang None s = s
  /\ deliver requestId lang (Some []) s = s.
Proof.
  cbn zeta. unfold streamTranslation. rewrite blank_spec.
  destruct (forallb isWhiteSpace text).
  - repeat split; constructor.
  - assert (Hcalls : List.Forall (fun c : jsstring => c <> [])
                       (omap accepted (chunkTexts answer))).
    { apply List.Forall_forall. intros c Hc.
      apply list_elem_of_In, list_elem_of_omap in Hc as (x & _ & Hx).
      by apply accepted_nonempty in Hx as [? _]. }
    destruct (ending answer); cbn [onChunkCalls requested];
      rewrite omap_accepted; repeat split; done.
Qed.

(** ** Empty input (C7, C10, and the behaviour C3 misses) *)

(** C7.  Whatever has been accumulated, an input that is empty or made of
    white space only resets every language's text to the empty string and
    the streaming flag to false, and issues no stream operation: the effect
    sends no request and registers no pending stream, [performTranslation]
    called directly does the same, and [streamTranslation] itself would
    return before its request. *)
Theorem empty_input_reset (text : jsstring) (s : AppState)
    (lang : SupportedLanguage) (answer : Response) :
  forallb isWhiteSpace text = true ->
  let s' := onDebouncedInput text s in
  (forall l, get l (translations s') = [])
  /\ isStreaming s' = false
  /\ sent s' = sent s
  /\ awaiting s' = awaiting s
  /\ performTranslation text s = s'
  /\ requested (streamTranslation text lang answer) = false.
Proof.
  intros Hws. rewrite <- blank_spec in Hws. cbn zeta.
  rewrite onDebouncedInput_blank, performTranslation_blank by done.
  unfold streamTranslation. rewrite Hws.
  repeat split. by intros [].
Qed.

Lemma empty_input_reset_witness :
  let s' := onDebouncedInput (js "  ") accumulated in
  (forall l, get l (translations s') = [])
  /\ isStreaming s' = false
  /\ sent s' = sent accumulated
  /\ awaiting s' = awaiting accumulated
  /\ performTranslation (js "  ") accumulated = s'
  /\ requested
       (streamTranslation (js "  ") SPANISH (mkResponse [] Completed))
     = false.
Proof.
  apply (empty_input_reset (js "  ") accumulated SPANISH
           (mkResponse [] Completed)).
  reflexivity.
Defined.

(** C10.  A call of [performTranslation] with blank text writes the
    per-language texts and the streaming flag and nothing else: the request
    id and the error slot keep their values, so an error message on display
    stays, every id passes [isCurrent] exactly as before, and a chunk of the
    generation that was current is still appended afterwards.  The effect's
    own branch for blank input does the same. *)
Theorem empty_input_frame (text : jsstring) (s : AppState)
    (lang : SupportedLanguage) (chunk : jsstring) :
  forallb isWhiteSpace text = true ->
  let s' := performTranslation text s in
  s' = mkApp noTranslations false (error s) (currentRequestId s)
         (awaiting s) (sent s) (console s)
  /\ currentRequestId s' = currentRequestId s
  /\ error s' = error s
  /\ (forall requestId, isCurrent requestId s' = isCurrent requestId s)
  /\ get lang (translations (onChunk (currentRequestId s) lang chunk s'))
     = chunk
  /\ onDebouncedInput text s = s'.
Proof.
  intros Hws. rewrite <- blank_spec in Hws. cbn zeta.
  rewrite onDebouncedInput_blank, performTranslation_blank by done.
  repeat split.
  unfold onChunk, isCurrent. cbn [currentRequestId translations].
  rewrite Z.eqb_refl. cbn [translations setTranslations].
  rewrite get_spread_eq. by destruct lang.
Qed.

Lemma empty_input_frame_witness :
  let s' := performTranslation [] withError in
  s' = mkApp noTranslations false (error withError)
         (currentRequestId withError) (awaiting withError) (sent withError)
         (console withError)
  /\ currentRequestId s' = currentRequestId withError
  /\ error s' = error withError
  /\ (forall requestId,
        isCurrent requestId s' = isCurrent requestId withError)
  /\ get ENGLISH
       (translations
          (onChunk (currentRequestId withError) ENGLISH (js "Hello") s'))
     = js "Hello"
  /\ onDebouncedInput [] withError = s'.
Proof.
  apply (empty_input_frame [] withError ENGLISH (js "Hello")).
  reflexivity.
Defined.

(** C3, on the code.  With a generation in flight (id 1), a blank input
    resets the texts and the flag and sends nothing, but takes no fresh id:
    the request id is still 1, and a chunk of generation 1 that arrives
    afterwards is appended to the texts just reset. *)
Theorem empty_input_does_not_supersede :
  let s1 := performTranslation (js "hola") initialApp in
  let s2 := performTranslation (js " ") s1 in
  currentRequestId s1 = 1
  /\ currentRequestId s2 = 1
  /\ translations s2 = noTranslations
  /\ isStreaming s2 = false
  /\ sent s2 = sent s1
  /\ get ENGLISH
       (translations (run [Chunk 1 ENGLISH (Some (js "hello"))] s2))
     = js "hello"
  /\ run [DebouncedInput (js " ")] s1 = s2.
Proof. vm_compute. repeat split. Qed.

(** C4, on the code.  Generation 1 has four streams; the English one fails
    after the others have started to deliver.  The other three accumulate
    their full text and the flag clears after the fourth settles, the
    failure is logged twice, and the error slot is still null. *)
Theorem stream_failure_not_reported :
  let events :=
    [Chunk 1 SPANISH (Some (js "Hola"));
     Chunk 1 JAPANESE (Some [12371; 12435]%N);
     Settle 1 ENGLISH Failed;
     Chunk 1 SPANISH (Some (js " mundo"));
     Chunk 1 CHINESE_TRADITIONAL (Some [20320; 22909]%N);
     Settle 1 SPANISH Completed;
     Settle 1 JAPANESE Completed;
     Settle 1 CHINESE_TRADITIONAL Completed] in
  let s := run events (performTranslation (js "Hello world") initialApp) in
  translations s
  = mkTranslations [20320; 22909]%N [] [12371; 12435]%N (js "Hola mundo")
  /\ isStreaming s = false
  /\ console s = [TranslationError; ErrorTranslatingTo ENGLISH]
  /\ error s = None.
Proof. vm_compute. repeat split. Qed.

(** ** Stale chunks (C1) *)

Lemma onChunk_current requestId lang chunk s :
  requestId = currentRequestId s ->
  onChunk requestId lang chunk s
  = setTranslations
      (spread (translations s) lang (get lang (translations s) ++ chunk)) s.
Proof. intros ->. unfold onChunk, isCurrent. by rewrite Z.eqb_refl. Qed.

Lemma onChunk_stale requestId lang chunk s :
  requestId <> currentRequestId s -> onChunk requestId lang chunk s = s.
Proof.
  intros Hne. unfold onChunk. apply isCurrent_false in Hne. by rewrite Hne.
Qed.

Lemma app_nonempty_neq (text : jsstring) (c : N) (chunk : jsstring) :
  text ++ c :: chunk <> text.
Proof.
  intros Heq. apply (f_equal (@length N)) in Heq.
  rewrite length_app in Heq. cbn in Heq. lia.
Qed.

(** Once the request id has moved past [g1], removing the chunks tagged
    [g1] from a trace does not change the state it leads to. *)
Lemma run_without_stale_chunks (g1 : Z) (events : list Event) (s : AppState) :
  g1 < currentRequestId s ->
  run events s = run (List.filter (fun e => negb (isChunkOf g1 e)) events) s.
Proof.
  revert s. induction events as [|e events IH]; intros s Hlt; [done|].
  cbn [List.filter]. destruct (isChunkOf g1 e) eqn:He; cbn [negb].
  - destruct e as [|g lang c|]; try discriminate.
    cbn in He. apply bool_decide_eq_true in He as ->.
    rewrite run_cons. cbn [step].
    rewrite deliver_stale by lia. by apply IH.
  - rewrite !run_cons. apply IH.
    pose proof (step_currentRequestId_le s e). lia.
Qed.

(** C1.  Let a new generation begin (non-blank [text2]) while [g1], an id
    issued earlier, may still have streams in flight.  Whatever events follow
    and in whatever order, the chunks tagged [g1] have no effect: the trace
    leads to the same state with them removed, and one more chunk of [g1]
    delivered after it leaves the state as it is.  At any moment [st], the
    callback of id [g] appends its (non-empty) chunk to the text of its
    language exactly when [g] is the current request id, and leaves the
    state untouched exactly when it is not. *)
Theorem staleness_suppression (s : AppState) (text2 : jsstring) (g1 : Z)
    (events : list Event) (lang : SupportedLanguage)
    (chunkText : option jsstring) (st : AppState) (g : Z) (c : N)
    (chunk : jsstring) :
  forallb isWhiteSpace text2 = false ->
  g1 <= currentRequestId s ->
  let s2 := performTranslation text2 s in
  run events s2
  = run (List.filter (fun e => negb (isChunkOf g1 e)) events) s2
  /\ step (run events s2) (Chunk g1 lang chunkText) = run events s2
  /\ (get lang (translations (onChunk g lang (c :: chunk) st))
      = get lang (translations st) ++ c :: chunk
      <-> g = currentRequestId st)
  /\ (onChunk g lang (c :: chunk) st = st <-> g <> currentRequestId st).
Proof.
  intros Hws Hle. rewrite <- blank_spec in Hws. cbn zeta.
  assert (Hlt : g1 < currentRequestId (performTranslation text2 s)).
  { rewrite performTranslation_nonblank by done. cbn. lia. }
  split; [by apply run_without_stale_chunks|].
  split.
  { cbn [step]. apply deliver_stale.
    pose proof (run_currentRequestId_le events (performTranslation text2 s)).
    lia. }
  destruct (decide (g = currentRequestId st)) as [Heq|Hne].
  - rewrite onChunk_current by done.
    cbn [translations setTranslations]. rewrite get_spread_eq.
    split; [done|]. split; [|done].
    intros Hsame. apply (f_equal (fun x => get lang (translations x))) in Hsame.
    cbn [translations setTranslations] in Hsame.
    rewrite get_spread_eq in Hsame. by apply app_nonempty_neq in Hsame.
  - rewrite onChunk_stale by done. split; [|done].
    split; [|done]. intros Hsame. symmetry in Hsame.
    by apply app_nonempty_neq in Hsame.
Qed.

Lemma staleness_suppression_witness :
  let s2 :=
    performTranslation (js "adios")
      (performTranslation (js "hola") initialApp) in
  let events :=
    [Chunk 2 ENGLISH (Some (js "good"));
     Chunk 1 ENGLISH (Some (js "hello"));
     Chunk 2 ENGLISH (Some (js "bye"))] in
  run events s2
  = run (List.filter (fun e => negb (isChunkOf 1 e)) events) s2
  /\ step (run events s2) (Chunk 1 ENGLISH (Some (js "hello")))
     = run events s2
  /\ (get ENGLISH (translations (onChunk 2 ENGLISH (js "bye") s2))
      = get ENGLISH (translations s2) ++ js "bye"
      <-> 2 = currentRequestId s2)
  /\ (onChunk 2 ENGLISH (js "bye") s2 = s2 <-> 2 <> currentRequestId s2).
Proof.
  apply (staleness_suppression (performTranslation (js "hola") initialApp)
           (js "adios") 1
           [Chunk 2 ENGLISH (Some (js "good"));
            Chunk 1 ENGLISH (Some (js "hello"));
            Chunk 2 ENGLISH (Some (js "bye"))]
           ENGLISH (Some (js "hello"))
           (performTranslation (js "adios")
              (performTranslation (js "hola") initialApp))
           2 98%N (js "ye")).
  - reflexivity.
  - vm_compute. discriminate.
Defined.

(** ** Accumulation in emission order (C5) *)

Lemma run_stream_events_text (events : list Event) (s : AppState)
    (lang : SupportedLanguage) :
  forallb isStreamEvent events = true ->
  get lang (translations (run events s))
  = get lang (translations s)
    ++ concat (omap accepted (emittedBy (currentRequestId s) lang events)).
Proof.
  revert s. induction events as [|e events IH]; intros s Hstream.
  { cbn. by rewrite app_nil_r. }
  cbn [forallb] in Hstream. apply andb_prop in Hstream as [He Hrest].
  rewrite run_cons, IH by done.
  rewrite step_stream_currentRequestId by done.
  destruct e as [|g l chunkText|g l r]; [discriminate|..]; cbn [step].
  - unfold emittedBy at 2. cbn [omap list_omap].
    fold (emittedBy (currentRequestId s) lang events).
    unfold deliver, onChunk, isCurrent.
    destruct (decide (g = currentRequestId s /\ l = lang)) as [[-> ->]|Hne].
    + cbn [omap list_omap].
      destruct (accepted chunkText) as [c|]; [|done].
      rewrite Z.eqb_refl. cbn [translations setTranslations concat].
      by rewrite get_spread_eq, app_assoc.
    + destruct (accepted chunkText) as [c|]; [|done].
      destruct (Z.eqb_spec (currentRequestId s) g) as [Hg|]; [|done].
      cbn [translations setTranslations].
      rewrite get_spread_ne; [done|]. intros ->. by apply Hne.
  - by rewrite settle_translations.
Qed.

Lemma concat_accepted (chunks : list (option jsstring)) :
  concat (omap accepted chunks) = concat (omap id chunks).
Proof.
  induction chunks as [|[[|x xs]|] chunks IH]; cbn; [done|done| |done].
  by rewrite IH.
Qed.

Lemma emittedBy_streamEvents requestId lang answer :
  emittedBy requestId lang (streamEvents requestId lang answer)
  = chunkTexts answer.
Proof.
  unfold streamEvents, emittedBy. rewrite omap_app. cbn [omap list_omap].
  rewrite app_nil_r.
  induction (chunkTexts answer) as [|c chunks IH]; [done|].
  cbn [List.map omap list_omap]. rewrite decide_True by done.
  f_equal. exact IH.
Qed.

(** C5.  While a generation is current (events of the streams only, in any
    interleaving with the other languages and with stale streams), the text
    of a language is the concatenation, in emission order, of the chunks its
    callback received: the calls [streamTranslation] makes for the chunk
    texts that stream has emitted so far.  Nothing is lost by the skipped
    chunks: it is also the concatenation of all the texts emitted.  A stream
    that emits "Hola" then " mundo" and completes leaves exactly
    "Hola mundo". *)
Theorem append_order_fidelity (text : jsstring) (s : AppState)
    (lang : SupportedLanguage) (events : list Event) (r : Settlement) :
  forallb isWhiteSpace text = false ->
  forallb isStreamEvent events = true ->
  let s1 := performTranslation text s in
  let g := currentRequestId s + 1 in
  let emitted := emittedBy g lang events in
  get lang (translations (run events s1))
  = concat (onChunkCalls (streamTranslation text lang (mkResponse emitted r)))
  /\ get lang (translations (run events s1)) = concat (omap id emitted)
  /\ get lang
       (translations
          (run (streamEvents g lang
                  (mkResponse [Some (js "Hola"); Some (js " mundo")]
                     Completed)) s1))
     = js "Hola mundo".
Proof.
  intros Hws Hstream. rewrite <- blank_spec in Hws. cbn zeta.
  assert (Hs1 : forall evs, forallb isStreamEvent evs = true ->
            get lang (translations (run evs (performTranslation text s)))
            = concat (omap accepted
                        (emittedBy (currentRequestId s + 1) lang evs))).
  { intros evs Hevs. rewrite run_stream_events_text by done.
    rewrite performTranslation_nonblank by done.
    cbn [translations currentRequestId]. by destruct lang. }
  split; [|split].
  - rewrite Hs1 by done. unfold streamTranslation. rewrite Hws.
    by destruct r.
  - rewrite Hs1 by done. apply concat_accepted.
  - rewrite Hs1 by done. by rewrite emittedBy_streamEvents.
Qed.

Lemma append_order_fidelity_witness :
  let s1 := performTranslation (js "Hello world") initialApp in
  let events :=
    [Chunk 1 SPANISH (Some (js "Hola"));
     Chunk 1 ENGLISH (Some (js "Hello"));
     Chunk 1 SPANISH None;
     Chunk 1 SPANISH (Some (js " mundo"));
     Settle 1 SPANISH Completed] in
  let emitted := emittedBy 1 SPANISH events in
  get SPANISH (translations (run events s1))
  = concat
      (onChunkCalls
         (streamTranslation (js "Hello world") SPANISH
            (mkResponse emitted Completed)))
  /\ get SPANISH (translations (run events s1)) = concat (omap id emitted)
  /\ get SPANISH
       (translations
          (run (streamEvents 1 SPANISH
                  (mkResponse [Some (js "Hola"); Some (js " mundo")]
                     Completed)) s1))
     = js "Hola mundo".
Proof.
  apply (append_order_fidelity (js "Hello world") initialApp SPANISH
           [Chunk 1 SPANISH (Some (js "Hola"));
            Chunk 1 ENGLISH (Some (js "Hello"));
            Chunk 1 SPANISH None;
            Chunk 1 SPANISH (Some (js " mundo"));
            Settle 1 SPANISH Completed] Completed);
    reflexivity.
Defined.

(** ** The streaming flag (C2) *)

Lemma settle_awaiting_other requestId lang r s (other : Z) :
  other <> requestId ->
  awaiting (settle requestId lang r s) !! other = awaiting s !! other.
Proof.
  intros Hne. settle_cases;
    rewrite ?lookup_delete_ne, ?lookup_insert_ne by done; reflexivity.
Qed.

Lemma settle_not_pending requestId lang r s pending :
  awaiting s !! requestId = Some pending -> lang ∉ pending ->
  settle requestId lang r s = s.
Proof.
  intros Hlook Hnotin. unfold settle. rewrite Hlook.
  by rewrite decide_False.
Qed.

Lemma settle_idle requestId lang r s :
  awaiting s !! requestId = None -> settle requestId lang r s = s.
Proof. intros Hlook. unfold settle. by rewrite Hlook. Qed.

(** The stream that settles is one the current call waits for. *)
Lemma settle_current requestId lang r s pending :
  awaiting s !! requestId = Some pending -> lang ∈ pending ->
  requestId = currentRequestId s ->
  let s' := settle requestId lang r s in
  match removeFirst lang pending with
  | [] => isStreaming s' = false /\ awaiting s' !! requestId = None
  | rest =>
      isStreaming s' = isStreaming s /\ awaiting s' !! requestId = Some rest
  end.
Proof.
  intros Hlook Hin ->. cbn zeta. unfold settle. rewrite Hlook.
  rewrite decide_True by done.
  destruct (removeFirst lang pending) as [|x rest];
    destruct r; unfold languagePromise, finish, isCurrent;
    cbn [currentRequestId setAwaiting consoleError];
    rewrite ?Z.eqb_refl;
    cbn [isStreaming awaiting setAwaiting setIsStreaming consoleError];
    rewrite ?lookup_delete_eq, ?lookup_insert_eq; done.
Qed.

Lemma removeFirst_elem (lang x : SupportedLanguage) pending :
  x ∈ removeFirst lang pending -> x ∈ pending.
Proof.
  induction pending as [|y pending IH]; cbn; [done|].
  destruct (decide (y = lang)); rewrite !elem_of_cons; tauto.
Qed.

Lemma removeFirst_NoDup (lang : SupportedLanguage) pending :
  NoDup pending -> NoDup (removeFirst lang pending).
Proof.
  induction 1 as [|y pending Hy Hnd IH]; cbn; [constructor|].
  destruct (decide (y = lang)); [done|].
  constructor; [|done]. intros Hin. by apply removeFirst_elem in Hin.
Qed.

Lemma allSettled_skip requestId e events pending :
  (forall g l r, e = Settle g l r -> g = requestId -> l ∉ pending) ->
  forallb (fun l => settledIn requestId l (e :: events)) pending
  = forallb (fun l => settledIn requestId l events) pending.
Proof.
  intros Hskip. induction pending as [|x pending IH]; [done|].
  cbn [forallb]. rewrite IH.
  - f_equal. unfold settledIn. cbn [existsb].
    destruct e as [|g l c|g l r]; [done..|].
    rewrite bool_decide_eq_false_2; [done|].
    intros [-> ->]. eapply Hskip; [done..|]. by left.
  - intros g l r He Hg Hin. eapply Hskip; [done..|]. by right.
Qed.

Lemma allSettled_removeFirst requestId lang r events pending :
  NoDup pending -> lang ∈ pending ->
  forallb (fun l => settledIn requestId l (Settle requestId lang r :: events))
    pending
  = forallb (fun l => settledIn requestId l events)
      (removeFirst lang pending).
Proof.
  induction 1 as [|x pending Hx Hnd IH]; intros Hin.
  { by apply elem_of_nil in Hin. }
  cbn [forallb removeFirst]. destruct (decide (x = lang)) as [->|Hne].
  - unfold settledIn at 1. cbn [existsb].
    rewrite bool_decide_eq_true_2 by done. cbn [orb andb].
    apply allSettled_skip. by intros g l r' [= -> -> ->] _.
  - cbn [forallb]. apply elem_of_cons in Hin as [->|Hin]; [done|].
    rewrite IH by done. f_equal.
    unfold settledIn. cbn [existsb].
    rewrite bool_decide_eq_false_2; [done|]. by intros [_ ->].
Qed.

(** Stream events when the current id awaits nothing: the flag stays. *)
Lemma run_stream_idle (events : list Event) (s : AppState) :
  forallb isStreamEvent events = true ->
  awaiting s !! currentRequestId s = None ->
  isStreaming (run events s) = isStreaming s.
Proof.
  revert s. induction events as [|e events IH]; intros s Hstream Hidle.
  { done. }
  cbn [forallb] in Hstream. apply andb_prop in Hstream as [He Hrest].
  rewrite run_cons.
  destruct e as [|g l c|g l r]; [discriminate|..]; cbn [step].
  - destruct (deliver_frame g l c s) as (Hflag & _ & Haw & _).
    rewrite IH; [done..|].
    by rewrite deliver_currentRequestId, Haw.
  - destruct (decide (g = currentRequestId s)) as [->|Hne].
    + rewrite settle_idle by done. by apply IH.
    + rewrite IH; [by apply settle_stale_isStreaming|done|].
      rewrite settle_currentRequestId.
      by rewrite settle_awaiting_other.
Qed.

(** Stream events while the current id awaits [pending]: the flag is up
    until each of them has settled, in whatever order. *)
Lemma run_stream_gating (events : list Event) (s : AppState)
    (pending : list SupportedLanguage) :
  forallb isStreamEvent events = true ->
  NoDup pending -> pending <> [] ->
  awaiting s !! currentRequestId s = Some pending ->
  isStreaming s = true ->
  isStreaming (run events s)
  = negb (forallb (fun l => settledIn (currentRequestId s) l events) pending).
Proof.
  revert s pending.
  induction events as [|e events IH]; intros s pending Hstream Hnd Hne Haw Hon.
  { destruct pending; [done|]. by cbn. }
  cbn [forallb] in Hstream. apply andb_prop in Hstream as [He Hrest].
  rewrite run_cons.
  destruct e as [|g l c|g l r]; [discriminate|..]; cbn [step].
  - destruct (deliver_frame g l c s) as (Hflag & _ & Haw' & _).
    rewrite (IH _ pending Hrest Hnd Hne).
    + rewrite deliver_currentRequestId. by rewrite allSettled_skip.
    + by rewrite deliver_currentRequestId, Haw'.
    + by rewrite Hflag.
  - destruct (decide (g = currentRequestId s)) as [->|Hg].
    + destruct (decide (l ∈ pending)) as [Hin|Hnotin].
      * pose proof (settle_current _ l r s pending Haw Hin eq_refl) as Hs.
        cbn zeta in Hs. rewrite allSettled_removeFirst by done.
        pose proof (removeFirst_NoDup l pending Hnd) as Hnd'.
        destruct (removeFirst l pending) as [|x rest] eqn:Hrem.
        -- destruct Hs as [Hoff Hidle]. cbn [forallb negb].
           rewrite run_stream_idle; [done..|].
           by rewrite settle_currentRequestId.
        -- destruct Hs as [Hsame Hrest'].
           rewrite (IH _ (x :: rest) Hrest Hnd'); [| done | |congruence].
           ++ by rewrite settle_currentRequestId.
           ++ by rewrite settle_currentRequestId.
      * rewrite (settle_not_pending _ l r s pending Haw Hnotin).
        rewrite (IH _ pending) by done.
        rewrite allSettled_skip; [done|].
        by intros g' l' r' [= -> -> ->] _.
    + rewrite (IH _ pending Hrest Hnd Hne).
      * rewrite settle_currentRequestId.
        rewrite allSettled_skip; [done|].
        by intros g' l' r' [= -> -> ->] Heq.
      * by rewrite settle_currentRequestId, settle_awaiting_other.
      * by rewrite settle_stale_isStreaming.
Qed.

Lemma TARGET_LANGUAGES_NoDup : NoDup TARGET_LANGUAGES.
Proof. apply (bool_decide_unpack _). reflexivity. Qed.

(** C2.  A generation with non-blank input raises [isStreaming] when it
    starts.  While it is current (events of the streams only), the flag is
    false after a trace exactly when each of the four streams has settled in
    it, so it stays up until the last one settles, however the settlements
    are ordered and whether streams complete or fail.  At the moment the last
    pending stream of a call [g'] settles, in any state, the flag is cleared
    if [g'] is the current id and left as it is otherwise. *)
Theorem completion_gating (text : jsstring) (s : AppState)
    (events : list Event) (st : AppState) (g' : Z) (lang : SupportedLanguage)
    (r : Settlement) :
  forallb isWhiteSpace text = false ->
  forallb isStreamEvent events = true ->
  let s1 := performTranslation text s in
  let g := currentRequestId s + 1 in
  let last := setAwaiting (<[g' := [lang]]> (awaiting st)) st in
  isStreaming s1 = true
  /\ isStreaming (run events s1)
     = negb (forallb (fun l => settledIn g l events) TARGET_LANGUAGES)
  /\ isStreaming (settle g' lang r last)
     = (if isCurrent g' st then false else isStreaming st).
Proof.
  intros Hws Hstream. rewrite <- blank_spec in Hws. cbn zeta.
  split; [by rewrite performTranslation_nonblank|].
  split.
  - rewrite (run_stream_gating events _ TARGET_LANGUAGES); try done.
    + by rewrite performTranslation_nonblank.
    + apply TARGET_LANGUAGES_NoDup.
    + rewrite performTranslation_nonblank by done.
      cbn [awaiting currentRequestId]. apply lookup_insert_eq.
    + by rewrite performTranslation_nonblank.
  - unfold settle. cbn [awaiting setAwaiting].
    rewrite lookup_insert_eq, decide_True by set_solver.
    cbn [removeFirst]. rewrite decide_True by done.
    destruct r; unfold languagePromise, finish, isCurrent;
      cbn [currentRequestId setAwaiting consoleError];
      destruct (Z.eqb_spec (currentRequestId st) g'); done.
Qed.

Lemma completion_gating_witness :
  let s1 := performTranslation (js "Hello world") initialApp in
  let events :=
    [Settle 1 JAPANESE Completed;
     Chunk 1 SPANISH (Some (js "Hola"));
     Settle 1 ENGLISH Failed;
     Settle 1 CHINESE_TRADITIONAL Completed] in
  let last := setAwaiting (<[1 := [SPANISH]]> (awaiting (run events s1)))
                (run events s1) in
  isStreaming s1 = true
  /\ isStreaming (run events s1)
     = negb (forallb (fun l => settledIn 1 l events) TARGET_LANGUAGES)
  /\ isStreaming (settle 1 SPANISH Completed last)
     = (if isCurrent 1 (run events s1) then false
        else isStreaming (run events s1)).
Proof.
  apply (completion_gating (js "Hello world") initialApp
           [Settle 1 JAPANESE Completed;
            Chunk 1 SPANISH (Some (js "Hola"));
            Settle 1 ENGLISH Failed;
            Settle 1 CHINESE_TRADITIONAL Completed]);
    reflexivity.
Defined.

(** ** The debouncer (C8) *)

Section DebounceProperties.
Context {T : Type} `{EqDecision T}.
Implicit Types (h : Debounce T) (ticks : list (Tick T)).

Lemma useDebounce_app ticks1 ticks2 h :
  useDebounce (ticks1 ++ ticks2) h
  = useDebounce ticks2 (useDebounce ticks1 h).
Proof. apply foldl_app. Qed.

Lemma render_changed (v : T) (d : N) h :
  mounted h = true -> v <> value h ->
  render v d h
  = mkDebounce v d (debouncedValue h) (Some (mkTimer v (now h + d)%N))
      (now h) (emissions h) true.
Proof.
  intros Hm Hne. unfold render. rewrite Hm.
  rewrite decide_False by (by intros [? _]).
  unfold setTimeout, clearTimeout. cbn. by rewrite Hm.
Qed.

Lemma elapse_early (dt : N) h (tm : Timer T) :
  handler h = Some tm -> (now h + dt < due tm)%N ->
  elapse dt h = advance dt h.
Proof.
  intros Hh Hlt. unfold elapse. cbn [handler advance now]. rewrite Hh.
  by rewrite (proj2 (N.leb_gt _ _)).
Qed.

Lemma elapse_due (dt : N) h (tm : Timer T) :
  handler h = Some tm -> (due tm <= now h + dt)%N ->
  elapse dt h = fire tm (advance dt h).
Proof.
  intros Hh Hle. unfold elapse. cbn [handler advance now]. rewrite Hh.
  by rewrite (proj2 (N.leb_le _ _)).
Qed.

Lemma elapse_no_timer (dt : N) h :
  handler h = None -> elapse dt h = advance dt h.
Proof. intros Hh. unfold elapse. cbn [handler advance]. by rewrite Hh. Qed.

(** Emissions are only ever added. *)
Lemma tick_emissions h (e : Tick T) :
  emissions h `prefix_of` emissions (tick h e).
Proof.
  destruct e as [v d|dt|]; cbn [tick].
  - unfold render. destruct (mounted h); [|done].
    destruct (decide _); done.
  - unfold elapse. cbn [handler advance].
    destruct (handler h) as [tm|]; [|done].
    destruct (_ <=? _)%N; [|done].
    cbn. by apply prefix_app_r.
  - done.
Qed.

Lemma useDebounce_emissions ticks h :
  emissions h `prefix_of` emissions (useDebounce ticks h).
Proof.
  revert h. induction ticks as [|e ticks IH]; intros h; [done|].
  cbn. etrans; [apply tick_emissions|apply IH].
Qed.

(** After the teardown nothing is emitted any more. *)
Lemma unmounted_silent ticks h :
  mounted h = false -> handler h = None ->
  emissions (useDebounce ticks h) = emissions h.
Proof.
  revert h. induction ticks as [|e ticks IH]; intros h Hm Hh; [done|].
  cbn [useDebounce foldl]. fold (useDebounce ticks (tick h e)).
  destruct e as [v d|dt|]; cbn [tick].
  - unfold render. rewrite Hm. by apply IH.
  - rewrite elapse_no_timer by done. by rewrite IH.
  - by rewrite IH.
Qed.

Lemma unmount_silent ticks h :
  emissions (useDebounce (Unmount :: ticks) h) = emissions h.
Proof.
  cbn [useDebounce foldl tick]. fold (useDebounce ticks (unmount h)).
  by rewrite unmounted_silent.
Qed.

Lemma waits_no_timer (waits : list N) h :
  handler h = None ->
  emissions (useDebounce (List.map Elapse waits) h) = emissions h
  /\ debouncedValue (useDebounce (List.map Elapse waits) h)
     = debouncedValue h.
Proof.
  revert h. induction waits as [|w waits IH]; intros h Hh; [done|].
  cbn [List.map useDebounce foldl tick].
  fold (useDebounce (List.map Elapse waits) (elapse w h)).
  rewrite elapse_no_timer by done.
  by destruct (IH (advance w h) Hh) as [-> ->].
Qed.

(** A pending timer fires once the waits add up to its due time, and
    only once. *)
Lemma waits_fire (w : N) (waits : list N) h (tm : Timer T) :
  handler h = Some tm ->
  let h' := useDebounce (List.map Elapse (w :: waits)) h in
  if (due tm <=? now h + total (w :: waits))%N then
    emissions h' = emissions h ++ [captured tm]
    /\ debouncedValue h' = captured tm
  else emissions h' = emissions h /\ debouncedValue h' = debouncedValue h.
Proof.
  revert w h. induction waits as [|w' waits IH]; intros w h Hh; cbn zeta;
    cbn [List.map useDebounce foldl tick];
    destruct (N.le_gt_cases (due tm) (now h + w)) as [Hle|Hgt].
  - rewrite (elapse_due w h tm) by done.
    cbn [total foldr]. rewrite N.add_0_r.
    by rewrite (proj2 (N.leb_le _ _)).
  - rewrite (elapse_early w h tm) by done.
    cbn [total foldr]. rewrite N.add_0_r.
    by rewrite (proj2 (N.leb_gt _ _)).
  - rewrite (elapse_due w h tm) by done.
    rewrite (proj2 (N.leb_le _ _)) by (cbn [total foldr]; lia).
    fold (useDebounce (List.map Elapse (w' :: waits))
            (fire tm (advance w h))).
    by apply (waits_no_timer (w' :: waits)).
  - rewrite (elapse_early w h tm) by done.
    fold (useDebounce (List.map Elapse (w' :: waits)) (advance w h)).
    specialize (IH w' (advance w h) Hh). cbn zeta in IH.
    cbn [now advance] in IH.
    replace (now h + total (w :: w' :: waits))%N
      with (now h + w + total (w' :: waits))%N
      by (cbn [total foldr]; lia).
    exact IH.
Qed.

Lemma last_nonempty (x : T) (l : list T) (d d' : T) :
  List.last (x :: l) d = List.last (d :: x :: l) d'.
Proof.
  cbn [List.last]. revert x. induction l as [|z l IH]; intros x; [done|].
  apply (IH z).
Qed.

(** The state a burst of rapid changes leads to: nothing emitted, and one
    timer pending, for the last value and a full window from the last
    change. *)
Lemma burst_pending (d : N) (changes : list (N * T)) h :
  mounted h = true ->
  handler h = Some (mkTimer (value h) (now h + d)%N) ->
  List.Forall (fun c => (c.1 < d)%N) changes ->
  changing (value h) changes ->
  let h' := useDebounce (burst d changes) h in
  emissions h' = emissions h
  /\ debouncedValue h' = debouncedValue h
  /\ mounted h' = true
  /\ value h' = List.last (List.map snd changes) (value h)
  /\ handler h' = Some (mkTimer (value h') (now h' + d)%N).
Proof.
  revert h.
  induction changes as [|[gap v] changes IH]; intros h Hm Hh Hgaps Hch.
  { done. }
  apply List.Forall_cons_iff in Hgaps as [Hgap Hgaps].
  destruct Hch as [Hne Hch]. cbn [fst snd] in *.
  cbn zeta. cbn [burst flat_map app useDebounce foldl tick fst snd].
  fold (burst d changes).
  fold (useDebounce (burst d changes) (render v d (elapse gap h))).
  rewrite (elapse_early gap h _ Hh) by (cbn [due]; lia).
  rewrite render_changed by done.
  set (st := mkDebounce v d _ _ _ _ true).
  destruct (IH st) as (He & Hd & Hm' & Hv & Hh'); [done..|].
  rewrite He, Hd, Hm', Hh'. repeat split.
  rewrite Hv. cbn [List.map value st snd].
  destruct changes as [|c changes]; [done|apply last_nonempty].
Qed.
End DebounceProperties.

(** C8.  Take a burst of changes of the debounced value, each one a real
    change and each one less than the window [d] after the one before.
    Nothing is emitted at any point of the burst.  After the last change the
    total of the waits decides: as soon as it reaches [d] there has been
    exactly one emission, of the last value, which is then the debounced
    value; before that there has been none.  A teardown at any point of the
    burst cancels the pending emission: whatever happens afterwards, nothing
    is emitted. *)
Theorem debounce_correctness {T : Type} `{EqDecision T} (d : N)
    (h : Debounce T) (v1 : T) (changes : list (N * T)) (quiet : N)
    (later : list N) (k : nat) (after : list (Tick T)) :
  mounted h = true ->
  v1 <> value h ->
  List.Forall (fun c => (c.1 < d)%N) changes ->
  changing v1 changes ->
  let ticks := Render v1 d :: burst d changes in
  let final := List.last (List.map snd changes) v1 in
  let settled := useDebounce (ticks ++ List.map Elapse (quiet :: later)) h in
  emissions (useDebounce (take k ticks) h) = emissions h
  /\ emissions settled
     = emissions h ++ (if (d <=? quiet + total later)%N then [final] else [])
  /\ debouncedValue settled
     = (if (d <=? quiet + total later)%N then final else debouncedValue h)
  /\ emissions (useDebounce (take k ticks ++ Unmount :: after) h)
     = emissions h.
Proof.
  intros Hm Hne Hgaps Hch. cbn zeta.
  set (ticks := Render v1 d :: burst d changes).
  pose proof (render_changed v1 d h Hm Hne) as Hr.
  set (h1 := mkDebounce v1 d _ _ _ _ true) in Hr.
  destruct (burst_pending d changes h1) as (He & Hd & Hm' & Hv & Hh);
    [done..|].
  assert (Hrun : useDebounce ticks h = useDebounce (burst d changes) h1).
  { unfold ticks. cbn [useDebounce foldl tick]. by rewrite Hr. }
  assert (Hquiet : emissions (useDebounce ticks h) = emissions h).
  { by rewrite Hrun, He. }
  assert (Hprefix : emissions (useDebounce (take k ticks) h) = emissions h).
  { symmetry. apply prefix_length_eq; [apply useDebounce_emissions|].
    transitivity
      (length (emissions
                 (useDebounce (drop k ticks) (useDebounce (take k ticks) h)))).
    - apply prefix_length, useDebounce_emissions.
    - by rewrite <- useDebounce_app, take_drop, Hquiet. }
  split; [exact Hprefix|].
  rewrite !useDebounce_app, Hrun.
  pose proof (waits_fire quiet later _ _ Hh) as Hfire.
  cbn zeta in Hfire. cbn [due captured total foldr] in Hfire.
  fold (total later) in Hfire.
  assert (Hcond : (now (useDebounce (burst d changes) h1) + d
                   <=? now (useDebounce (burst d changes) h1)
                       + (quiet + total later))%N
                  = (d <=? quiet + total later)%N).
  { destruct (N.leb_spec d (quiet + total later)).
    - apply N.leb_le. lia.
    - apply N.leb_gt. lia. }
  rewrite Hcond in Hfire.
  destruct (d <=? quiet + total later)%N; destruct Hfire as [Hem Hdv].
  - rewrite Hem, Hdv, He, Hv. repeat split.
    by rewrite unmount_silent.
  - rewrite Hem, Hdv, He, Hd, app_nil_r. repeat split.
    by rewrite unmount_silent.
Qed.

Lemma debounce_correctness_witness :
  let h := mount [] debounceDelay 0 in
  let d := debounceDelay in
  let changes := [(120%N, js "ho"); (300%N, js "hol"); (799%N, js "hola")] in
  let ticks := Render (js "h") d :: burst d changes in
  let settled := useDebounce (ticks ++ List.map Elapse [500; 300]%N) h in
  emissions (useDebounce (take 3 ticks) h) = emissions h
  /\ emissions settled = emissions h ++ [js "hola"]
  /\ debouncedValue settled = js "hola"
  /\ emissions
       (useDebounce (take 3 ticks ++ [Unmount; Elapse 5000%N]) h)
     = emissions h.
Proof.
  apply (debounce_correctness debounceDelay (mount [] debounceDelay 0)
           (js "h")
           [(120%N, js "ho"); (300%N, js "hol"); (799%N, js "hola")]
           500%N [300%N] 3 [Elapse 5000%N]).
  - reflexivity.
  - discriminate.
  - repeat constructor.
  - repeat split; discriminate.
Defined.

(** * Further properties of the component *)

(** ** Request accounting *)

Lemma step_sent_current (s : AppState) (e : Event) :
  currentRequestId (step s e)
  = currentRequestId s + Z.of_nat (length (inputsOf [e]))
  /\ sent (step s e) = sent s ++ flat_map requestsFor (inputsOf [e]).
Proof.
  destruct e as [text|g lang c|g lang r]; cbn [step inputsOf omap list_omap].
  - destruct (blank text) eqn:Hb.
    + rewrite onDebouncedInput_blank by done. cbn. split; [lia|].
      by rewrite app_nil_r.
    + rewrite onDebouncedInput_nonblank, performTranslation_nonblank by done.
      cbn [currentRequestId sent length flat_map]. split; [lia|].
      by rewrite app_nil_r.
  - rewrite deliver_currentRequestId.
    destruct (deliver_frame g lang c s) as (_ & _ & _ & ->).
    cbn. split; [lia|]. by rewrite app_nil_r.
  - rewrite settle_currentRequestId, settle_sent.
    cbn. split; [lia|]. by rewrite app_nil_r.
Qed.

Lemma inputsOf_cons (e : Event) (events : list Event) :
  inputsOf (e :: events) = inputsOf [e] ++ inputsOf events.
Proof. unfold inputsOf. apply (omap_app _ [e] events). Qed.

(** X1.  Over any trace, from any state, the request id has advanced by
    the number of non-blank inputs, and the requests sent are, for each
    non-blank input in order, one request per target language carrying that
    input: chunks, settlements and blank inputs never send anything, and no
    generation sends more or fewer than its four requests. *)
Theorem request_accounting (events : list Event) (s : AppState) :
  currentRequestId (run events s)
  = currentRequestId s + Z.of_nat (length (inputsOf events))
  /\ sent (run events s) = sent s ++ flat_map requestsFor (inputsOf events).
Proof.
  revert s. induction events as [|e events IH]; intros s.
  - cbn. split; [lia|]. by rewrite app_nil_r.
  - rewrite run_cons, inputsOf_cons.
    destruct (IH (step s e)) as [-> ->].
    destruct (step_sent_current s e) as [-> ->].
    rewrite length_app, flat_map_app, app_assoc. split; [lia|done].
Qed.

(** ** The flag is never up without a pending stream *)

Lemma removeFirst_subseteq (lang : SupportedLanguage) pending :
  removeFirst lang pending ⊆ pending.
Proof. intros x. apply removeFirst_elem. Qed.

Lemma step_flagCovered (s : AppState) (e : Event) :
  flagCovered s -> flagCovered (step s e).
Proof.
  intros Hcov. destruct e as [text|g lang c|g lang r]; cbn [step].
  - destruct (blank text) eqn:Hb.
    + rewrite onDebouncedInput_blank by done. intros Hup. discriminate Hup.
    + rewrite onDebouncedInput_nonblank, performTranslation_nonblank by done.
      intros _. exists TARGET_LANGUAGES. cbn [awaiting currentRequestId].
      rewrite lookup_insert_eq. done.
  - destruct (deliver_frame g lang c s) as (Hflag & _ & Haw & _).
    unfold flagCovered. by rewrite deliver_currentRequestId, Hflag, Haw.
  - unfold flagCovered. rewrite settle_currentRequestId.
    destruct (decide (g = currentRequestId s)) as [->|Hg].
    + destruct (awaiting s !! currentRequestId s) as [pending|] eqn:Haw.
      * destruct (decide (lang ∈ pending)) as [Hin|Hnotin].
        -- pose proof (settle_current _ lang r s pending Haw Hin eq_refl)
             as Hs. cbn zeta in Hs.
           pose proof (removeFirst_subseteq lang pending) as Hsub.
           destruct (removeFirst lang pending) as [|x rest].
           ++ destruct Hs as [Hoff _]. intros Hup. congruence.
           ++ destruct Hs as [Hsame ->]. rewrite Hsame. intros Hup.
              destruct (Hcov Hup) as (p & Hp & _ & Hp').
              exists (x :: rest). repeat split; [done|].
              etrans; [exact Hsub|]. by simplify_eq.
        -- rewrite (settle_not_pending _ lang r s pending Haw Hnotin).
           exact Hcov.
      * rewrite settle_idle by done. exact Hcov.
    + rewrite settle_stale_isStreaming by done.
      rewrite settle_awaiting_other by done. exact Hcov.
Qed.

(** X2.  In every state the component can reach, a raised streaming flag
    means that the call holding the current request id still waits for at
    least one of its streams (and only for streams of target languages): the
    indicator is never left on with nothing outstanding. *)
Theorem streaming_flag_covered (events : list Event) :
  isStreaming (run events initialApp) = true ->
  exists pending : list SupportedLanguage,
    awaiting (run events initialApp)
      !! currentRequestId (run events initialApp) = Some pending
    /\ pending <> []
    /\ pending ⊆ TARGET_LANGUAGES.
Proof.
  assert (Hgen : forall s, flagCovered s -> flagCovered (run events s)).
  { induction events as [|e events IH]; intros s Hcov; [done|].
    rewrite run_cons. by apply IH, step_flagCovered. }
  apply (Hgen initialApp). intros Hup. discriminate Hup.
Qed.

Lemma streaming_flag_covered_witness :
  exists pending : list SupportedLanguage,
    awaiting
      (run [DebouncedInput (js "hola"); Settle 1 ENGLISH Completed]
         initialApp)
      !! currentRequestId
           (run [DebouncedInput (js "hola"); Settle 1 ENGLISH Completed]
              initialApp)
    = Some pending
    /\ pending <> []
    /\ pending ⊆ TARGET_LANGUAGES.
Proof.
  apply (streaming_flag_covered
           [DebouncedInput (js "hola"); Settle 1 ENGLISH Completed]).
  reflexivity.
Defined.

(** ** What came before a generation does not show *)

Lemma settle_visible_current requestId lang r s s' :
  sameOnScreen s s' -> requestId = currentRequestId s ->
  sameOnScreen (settle requestId lang r s) (settle requestId lang r s').
Proof.
  intros (Hvis & Hcur & Haw) ->. unfold sameOnScreen.
  rewrite !settle_currentRequestId.
  unfold visible in *. rewrite !settle_translations, !settle_error.
  injection Hvis as Ht Hf He. rewrite Ht, He, <- Hcur.
  rewrite <- Hcur in Haw.
  destruct (awaiting s !! currentRequestId s) as [pending|] eqn:Hs;
    symmetry in Haw.
  - destruct (decide (lang ∈ pending)) as [Hin|Hnotin].
    + pose proof (settle_current _ lang r s pending Hs Hin eq_refl) as H1.
      pose proof (settle_current _ lang r s' pending Haw Hin Hcur) as H2.
      cbn zeta in H1, H2.
      destruct (removeFirst lang pending) as [|x rest];
        destruct H1 as [F1 A1]; destruct H2 as [F2 A2];
        rewrite F1, F2, A1, A2; by rewrite ?Hf.
    + rewrite (settle_not_pending _ lang r s pending Hs Hnotin).
      rewrite (settle_not_pending _ lang r s' pending Haw Hnotin).
      by rewrite Hs, Haw, Hf.
  - rewrite (settle_idle _ lang r s Hs), (settle_idle _ lang r s' Haw).
    by rewrite Hs, Haw, Hf.
Qed.

Lemma step_sameOnScreen (s s' : AppState) (e : Event) :
  sameOnScreen s s' -> sameOnScreen (step s e) (step s' e).
Proof.
  intros Hsame. pose proof Hsame as (Hvis & Hcur & Haw).
  unfold visible in Hvis. injection Hvis as Ht Hf He.
  destruct e as [text|g lang c|g lang r]; cbn [step].
  - destruct (blank text) eqn:Hb.
    + rewrite !onDebouncedInput_blank by done.
      unfold sameOnScreen, visible. cbn. by rewrite He.
    + rewrite !onDebouncedInput_nonblank, !performTranslation_nonblank
        by done.
      unfold sameOnScreen, visible. cbn [translations isStreaming error
        currentRequestId awaiting].
      rewrite Hcur, !lookup_insert_eq. done.
  - unfold sameOnScreen, visible.
    rewrite !deliver_currentRequestId.
    destruct (deliver_frame g lang c s) as (-> & -> & -> & _).
    destruct (deliver_frame g lang c s') as (-> & -> & -> & _).
    rewrite Hf, He. repeat split; [|done..].
    unfold deliver, onChunk, isCurrent. rewrite Hcur.
    destruct (accepted c); [|by rewrite Ht].
    destruct (_ =? _); cbn [translations setTranslations]; by rewrite Ht.
  - destruct (decide (g = currentRequestId s)) as [Hg|Hg].
    + by apply settle_visible_current.
    + unfold sameOnScreen, visible.
      rewrite !settle_currentRequestId, !settle_translations, !settle_error.
      rewrite !settle_stale_isStreaming by congruence.
      rewrite !settle_awaiting_other by congruence.
      by rewrite Ht, Hf, He.
Qed.

(** X3.  Once a generation has started, nothing of the earlier history
    can influence what is displayed.  Take two states with the same request
    id but otherwise arbitrary (other texts, flag, error, other streams
    awaited by older calls) and start a generation for the same non-blank
    text in both: after any further events, the same in both, the texts, the
    streaming flag and the error slot agree. *)
Theorem history_does_not_show (text : jsstring) (s s' : AppState)
    (events : list Event) :
  forallb isWhiteSpace text = false ->
  currentRequestId s = currentRequestId s' ->
  visible (run events (performTranslation text s))
  = visible (run events (performTranslation text s')).
Proof.
  intros Hws Hcur. rewrite <- blank_spec in Hws.
  assert (Hgen : forall a b, sameOnScreen a b ->
            sameOnScreen (run events a) (run events b)).
  { induction events as [|e events IH]; intros a b Hab; [done|].
    rewrite !run_cons. by apply IH, step_sameOnScreen. }
  apply Hgen. rewrite !performTranslation_nonblank by done.
  unfold sameOnScreen, visible.
  cbn [translations isStreaming error currentRequestId awaiting].
  rewrite Hcur, !lookup_insert_eq. done.
Qed.

Lemma history_does_not_show_witness :
  visible
    (run [Chunk 1 SPANISH (Some (js "Hola")); Settle 1 ENGLISH Failed]
       (performTranslation (js "hello") initialApp))
  = visible
      (run [Chunk 1 SPANISH (Some (js "Hola")); Settle 1 ENGLISH Failed]
         (performTranslation (js "hello")
            (setCurrentRequestId 0 accumulated))).
Proof.
  apply (history_does_not_show (js "hello") initialApp
           (setCurrentRequestId 0 accumulated)
           [Chunk 1 SPANISH (Some (js "Hola")); Settle 1 ENGLISH Failed]);
    reflexivity.
Defined.

(** ** The debounced value never lags unnoticed *)

Section CaughtUpProperties.
Context {T : Type} `{EqDecision T}.

Lemma tick_caughtUp (h : Debounce T) (e : Tick T) :
  caughtUp h -> caughtUp (tick h e).
Proof.
  unfold caughtUp.
  destruct e as [v d|dt|]; cbn [tick]; [| |reflexivity].
  - unfold render. destruct (mounted h) eqn:Hm; [|by rewrite Hm].
    destruct (decide _) as [_|_]; [by rewrite Hm|].
    intros _.
    cbn [setTimeout clearTimeout mounted handler captured due value now
         delay]. rewrite Hm. split; [done|]. lia.
  - destruct (handler h) as [tm|] eqn:Hh.
    + destruct (N.le_gt_cases (due tm) (now h + dt)) as [Hle|Hgt].
      * rewrite (elapse_due dt h tm) by done.
        cbn [fire advance mounted handler debouncedValue value].
        destruct (mounted h); [|done]. by intros [-> _].
      * rewrite (elapse_early dt h tm) by done.
        cbn [advance mounted handler value now delay]. rewrite Hh.
        destruct (mounted h); [|done].
        intros (-> & ? & ?). split; [done|]. lia.
    + rewrite elapse_no_timer by done.
      cbn [advance mounted handler debouncedValue value]. by rewrite Hh.
Qed.

(** X5.  However the input changes and time passes after the first
    render, while the consumer is mounted the debounced value is either
    equal to the current input or a timer is pending that will deliver the
    current input (no older value) and is due no later than one delay from
    now; after the teardown no timer is left. *)
Theorem debounce_caught_up (v : T) (d t : N) (ticks : list (Tick T)) :
  caughtUp (useDebounce ticks (mount v d t)).
Proof.
  assert (Hgen : forall h, caughtUp h -> caughtUp (useDebounce ticks h)).
  { induction ticks as [|e ticks IH]; intros h Hh; [done|].
    cbn [useDebounce foldl]. by apply IH, tick_caughtUp. }
  apply Hgen. unfold caughtUp, mount. cbn. split; [done|]. lia.
Qed.
End CaughtUpProperties.

(** ** Typing reaches the model once *)

Lemma live_app xs ys c : live (xs ++ ys) c = live ys (live xs c).
Proof. apply foldl_app. Qed.

(** While the input keeps changing faster than the delay, the effect does
    not run, and one timer is pending for the last input. *)
Lemma live_typing (changes : list (N * jsstring)) (c : Component) :
  mounted (hook c) = true ->
  handler (hook c)
  = Some (mkTimer (value (hook c)) (now (hook c) + debounceDelay)%N) ->
  List.Forall (fun ch => (ch.1 < debounceDelay)%N) changes ->
  changing (value (hook c)) changes ->
  let c' := live (typing changes) c in
  appState c' = appState c
  /\ debouncedValue (hook c') = debouncedValue (hook c)
  /\ value (hook c') = List.last (List.map snd changes) (value (hook c))
  /\ handler (hook c')
     = Some (mkTimer (value (hook c')) (now (hook c') + debounceDelay)%N).
Proof.
  revert c.
  induction changes as [|[gap v] changes IH]; intros c Hm Hh Hgaps Hch.
  { done. }
  apply List.Forall_cons_iff in Hgaps as [Hgap Hgaps].
  destruct Hch as [Hne Hch]. cbn [fst snd] in *.
  cbn zeta. cbn [typing flat_map live foldl happen fst snd].
  rewrite <- app_comm_cons. cbn [foldl happen app].
  fold (typing changes).
  match goal with
  | |- context [foldl happen ?st (typing changes)] =>
      fold (live (typing changes) st); set (c1 := st)
  end.
  assert (Hel : elapse gap (hook c) = advance gap (hook c)).
  { apply (elapse_early gap _ _ Hh). cbn [due]. lia. }
  assert (Hhook : hook c1
            = mkDebounce v debounceDelay (debouncedValue (hook c))
                (Some (mkTimer v (now (hook c) + gap + debounceDelay)%N))
                (now (hook c) + gap)%N (emissions (hook c)) true).
  { unfold c1. cbn [hook]. rewrite Hel.
    by rewrite render_changed. }
  assert (Happ : appState c1 = appState c).
  { unfold c1. cbn [appState]. rewrite Hel. unfold runEffect.
    by rewrite decide_True. }
  destruct (IH c1) as (Ha & Hd & Hv & Hh'); rewrite ?Hhook; try done.
  split; [by rewrite Ha|]. split; [by rewrite Hd, Hhook|].
  split; [|exact Hh'].
  rewrite Hv, Hhook. cbn [value List.map snd].
  destruct changes as [|ch changes]; [done|]. apply last_nonempty.
Qed.

(** X4.  The input changes in a burst (every change a real one and less
    than 800 ms after the one before), then stays for at least 800 ms.
    During the burst the effect does not run: no text is reset and nothing is
    sent.  After the pause the effect has run at most once, for the last
    input only, and not at all when the last input is the value already
    debounced; so the requests added are the four of the last input when it
    is new and not blank, and none otherwise. *)
Theorem typing_reaches_model_once (c : Component) (v1 : jsstring)
    (changes : list (N * jsstring)) (quiet : N) :
  mounted (hook c) = true ->
  v1 <> value (hook c) ->
  List.Forall (fun ch => (ch.1 < debounceDelay)%N) changes ->
  changing v1 changes ->
  (debounceDelay <= quiet)%N ->
  let keys := SetInputVal v1 :: typing changes in
  let final := List.last (List.map snd changes) v1 in
  let before := debouncedValue (hook c) in
  appState (live keys c) = appState c
  /\ appState (live (keys ++ [Wait quiet]) c)
     = (if decide (final = before) then appState c
        else onDebouncedInput final (appState c))
  /\ sent (appState (live (keys ++ [Wait quiet]) c))
     = sent (appState c)
       ++ (if decide (final = before) then []
           else if forallb isWhiteSpace final then []
           else requestsFor final).
Proof.
  intros Hm Hne Hgaps Hch Hquiet. cbn zeta.
  set (c1 := happen c (SetInputVal v1)).
  assert (Hhook : hook c1
            = mkDebounce v1 debounceDelay (debouncedValue (hook c))
                (Some (mkTimer v1 (now (hook c) + debounceDelay)%N))
                (now (hook c)) (emissions (hook c)) true).
  { unfold c1. cbn [happen hook]. by rewrite render_changed. }
  destruct (live_typing changes c1) as (Ha & Hd & Hv & Hh);
    rewrite ?Hhook; try done.
  rewrite Hhook in Hd, Hv. cbn [debouncedValue value] in Hd, Hv.
  assert (Hkeys : live (SetInputVal v1 :: typing changes) c
                  = live (typing changes) c1) by done.
  assert (Hburst : appState (live (SetInputVal v1 :: typing changes) c)
                   = appState c) by (by rewrite Hkeys, Ha).
  split; [exact Hburst|].
  assert (Hafter :
    appState (live ((SetInputVal v1 :: typing changes) ++ [Wait quiet]) c)
    = (if decide (List.last (List.map snd changes) v1
                  = debouncedValue (hook c))
       then appState c
       else onDebouncedInput (List.last (List.map snd changes) v1)
              (appState c))).
  { rewrite live_app, Hkeys. cbn [live foldl happen appState].
    fold (live (typing changes) c1).
    rewrite (elapse_due quiet _ _ Hh) by (cbn [due]; lia).
    unfold runEffect. cbn [fire debouncedValue captured].
    rewrite Hd, Hv, Ha. done. }
  split; [exact Hafter|].
  rewrite Hafter. destruct (decide _) as [_|_]; [by rewrite app_nil_r|].
  rewrite <- blank_spec.
  destruct (blank (List.last (List.map snd changes) v1)) eqn:Hb.
  - rewrite onDebouncedInput_blank by done. cbn. by rewrite app_nil_r.
  - by rewrite onDebouncedInput_nonblank, performTranslation_nonblank.
Qed.

Lemma typing_reaches_model_once_witness :
  let keys :=
    SetInputVal (js "h")
    :: typing [(120%N, js "ho"); (300%N, js "hol"); (799%N, js "hola")] in
  appState (live keys firstRender) = appState firstRender
  /\ appState (live (keys ++ [Wait 800]) firstRender)
     = onDebouncedInput (js "hola") (appState firstRender)
  /\ sent (appState (live (keys ++ [Wait 800]) firstRender))
     = requestsFor (js "hola").
Proof.
  apply (typing_reaches_model_once firstRender (js "h")
           [(120%N, js "ho"); (300%N, js "hol"); (799%N, js "hola")]
           800%N).
  - reflexivity.
  - discriminate.
  - repeat constructor.
  - repeat split; discriminate.
  - discriminate.
Defined.

(** ** What a panel shows during a generation *)

(** X6.  The body of a panel always shows exactly one of: the text, the
    loading dots, the hint "Waiting for input...".  During a generation
    (events of the streams only, after a non-blank input) the panel of a
    language shows the text its stream has delivered so far as soon as that
    is not empty, together with the speak and copy buttons; with no text
    yet, it shows the loading dots until the last of the four streams has
    settled and the hint from then on. *)
Theorem panel_during_generation (text : jsstring) (s : AppState)
    (lang : SupportedLanguage) (isSpeaking : bool) (events : list Event)
    (translation : jsstring) (isLoading : bool) :
  forallb isWhiteSpace text = false ->
  forallb isStreamEvent events = true ->
  let g := currentRequestId s + 1 in
  let delivered := concat (omap accepted (emittedBy g lang events)) in
  let allSettled :=
    forallb (fun l => settledIn g l events) TARGET_LANGUAGES in
  bodyParts (OutputArea translation isLoading isSpeaking) = 1%nat
  /\ panel lang isSpeaking (run events (performTranslation text s))
     = match delivered with
       | [] => mkOutputView None false (negb allSettled) None allSettled
       | _ :: _ => mkOutputView (Some isSpeaking) true false (Some delivered)
                     false
       end.
Proof.
  intros Hws Hstream. rewrite <- blank_spec in Hws. cbn zeta. split.
  { unfold bodyParts, OutputArea. cbn [loadingDots paragraph waitingHint].
    by destruct translation, isLoading. }
  unfold panel.
  rewrite run_stream_events_text by done.
  rewrite (run_stream_gating events _ TARGET_LANGUAGES); try done.
  - rewrite performTranslation_nonblank by done.
    cbn [translations currentRequestId].
    replace (get lang noTranslations) with (@nil N) by (by destruct lang).
    cbn [app]. unfold OutputArea.
    destruct (concat _) as [|x xs]; cbn [truthy negb andb].
    + by rewrite andb_true_r, negb_involutive.
    + by rewrite andb_false_r.
  - apply TARGET_LANGUAGES_NoDup.
  - rewrite performTranslation_nonblank by done.
    cbn [awaiting currentRequestId]. apply lookup_insert_eq.
  - by rewrite performTranslation_nonblank.
Qed.

Lemma panel_during_generation_witness :
  let events :=
    [Chunk 1 SPANISH (Some (js "Hola")); Settle 1 ENGLISH Completed] in
  bodyParts (OutputArea (js "Hola") true false) = 1%nat
  /\ panel ENGLISH false
       (run events (performTranslation (js "hello") initialApp))
     = mkOutputView None false true None false.
Proof.
  apply (panel_during_generation (js "hello") initialApp ENGLISH false
           [Chunk 1 SPANISH (Some (js "Hola")); Settle 1 ENGLISH Completed]
           (js "Hola") true);
    reflexivity.
Defined.

(** ** ttsService.ts: decoding the audio *)

Lemma int16_range (lo hi : N) :
  (lo < 256)%N -> (hi < 256)%N -> -32768 <= int16 lo hi <= 32767.
Proof.
  intros Hlo Hhi. unfold int16. cbn zeta.
  destruct (Z.ltb_spec (Z.of_N lo + 256 * Z.of_N hi) 32768); lia.
Qed.

Lemma int16s_range (bytes : list N) :
  List.Forall (fun b => (b < 256)%N) bytes ->
  List.Forall (fun x => -32768 <= x <= 32767) (int16s bytes).
Proof.
  revert bytes. fix IH 1. intros [|lo [|hi rest]] Hbytes; cbn [int16s].
  - constructor.
  - constructor.
  - apply List.Forall_cons_iff in Hbytes as [Hlo Hbytes].
    apply List.Forall_cons_iff in Hbytes as [Hhi Hbytes].
    constructor; [by apply int16_range|by apply IH].
Qed.

Lemma int16s_length (bytes : list N) :
  length (int16s bytes) = (length bytes / 2)%nat.
Proof.
  revert bytes. fix IH 1. intros [|lo [|hi rest]]; cbn [int16s length].
  - reflexivity.
  - reflexivity.
  - rewrite IH. change (S (S (length rest))) with (1 * 2 + length rest)%nat.
    rewrite Nat.add_comm, Nat.div_add by done. lia.
Qed.

Lemma toFloat_range (x : Z) :
  -32768 <= x <= 32767 -> (- (1) <= toFloat x)%Q /\ (toFloat x < 1)%Q.
Proof.
  intros Hx. unfold toFloat, Qle, Qlt. cbn. lia.
Qed.

Lemma decode_bytes (browser : Browser) (base64 : jsstring) (bytes : list N) :
  decode browser base64 = Some bytes ->
  List.Forall (fun b => (b < 256)%N) bytes.
Proof.
  unfold decode. destruct (atob browser base64) as [bin|]; [|done].
  intros [= <-]. apply List.Forall_forall. intros b Hb.
  apply in_map_iff in Hb as (c & <- & _). unfold uint8.
  apply N.mod_lt. done.
Qed.

Lemma nth_map_seq {A : Type} (f : nat -> A) (n i : nat) (d : A) :
  (i < n)%nat -> nth i (List.map f (seq 0 n)) d = f i.
Proof.
  intros Hi.
  rewrite (nth_indep _ d (f 0%nat)) by (by rewrite length_map, length_seq).
  rewrite (List.map_nth f (seq 0 n) 0%nat i). by rewrite seq_nth.
Qed.

Lemma decodeAudioData_spec (browser : Browser) (data : list N)
    (sampleRate : N) (numChannels : nat) (channels : list (list Q)) :
  List.Forall (fun b => (b < 256)%N) data ->
  decodeAudioData browser data sampleRate numChannels = Some channels ->
  let frames := (length data / 2 / numChannels)%nat in
  Nat.even (length data) = true
  /\ length channels = numChannels
  /\ List.Forall (fun ch => length ch = frames) channels
  /\ List.Forall
       (List.Forall (fun q => (- (1) <= q)%Q /\ (q < 1)%Q)) channels
  /\ (forall c i : nat,
        nth i (nth c channels []) 0%Q
        = if bool_decide (c < numChannels /\ i < frames)%nat then
            toFloat (nth (i * numChannels + c)%nat (int16s data) 0)
          else 0%Q).
Proof.
  intros Hbytes. unfold decodeAudioData, Int16Array.
  destruct (Nat.even (length data)) eqn:Heven; [|done].
  destruct (createBuffer _ _ _ _); [|done]. intros [= <-]. cbn zeta.
  rewrite <- int16s_length.
  pose proof (int16s_range data Hbytes) as Hrange.
  split; [done|]. split; [by rewrite length_map, length_seq|].
  split; [|split].
  - apply List.Forall_forall. intros ch Hch.
    apply in_map_iff in Hch as (k & <- & _).
    by rewrite length_map, length_seq.
  - apply List.Forall_forall. intros ch Hch.
    apply in_map_iff in Hch as (k & <- & _).
    apply List.Forall_forall. intros q Hq.
    apply in_map_iff in Hq as (j & <- & _).
    apply toFloat_range.
    destruct (nth_in_or_default (j * numChannels + k) (int16s data) 0)
      as [Hin| ->]; [|lia].
    by apply (proj1 (List.Forall_forall _ _) Hrange).
  - intros c i. case_bool_decide as Hci.
    + destruct Hci as [Hc Hi]. by rewrite !nth_map_seq.
    + destruct (decide (c < numChannels)%nat) as [Hc|Hc].
      * rewrite nth_map_seq by done. apply nth_overflow.
        rewrite length_map, length_seq. lia.
      * rewrite (nth_overflow (List.map _ _)); [by destruct i|].
        rewrite length_map, length_seq. lia.
Qed.

(** X7.  [decodeAudioData] on the bytes of a [Uint8Array]: when it
    returns, the byte length was even, there is one list of samples per
    channel, each holds (byte length / 2) / numChannels samples (rounded
    down), sample [i] of channel [c] is the 16-bit little-endian word number
    [i * numChannels + c] divided by 32768, and every sample lies in
    [-1, 1): the value 1.0 of the source's comment is never produced. *)
Theorem decodeAudioData_samples (browser : Browser) (data : list N)
    (sampleRate : N) (numChannels : nat) (channels : list (list Q)) :
  List.Forall (fun b => (b < 256)%N) data ->
  decodeAudioData browser data sampleRate numChannels = Some channels ->
  let frames := (length data / 2 / numChannels)%nat in
  Nat.even (length data) = true
  /\ length channels = numChannels
  /\ List.Forall (fun ch => length ch = frames) channels
  /\ List.Forall
       (List.Forall (fun q => (- (1) <= q)%Q /\ (q < 1)%Q)) channels
  /\ (forall c i : nat,
        nth i (nth c channels []) 0%Q
        = if bool_decide (c < numChannels /\ i < frames)%nat then
            toFloat (nth (i * numChannels + c)%nat (int16s data) 0)
          else 0%Q).
Proof. apply decodeAudioData_spec. Qed.

Lemma decodeAudioData_samples_witness :
  let browser := mkBrowser (fun b => Some b) (fun _ _ _ => true) in
  let data := [0; 128; 255; 127; 1; 0; 254; 255]%N in
  let channels :=
    [[Qmake (-32768) 32768; Qmake 1 32768];
     [Qmake 32767 32768; Qmake (-2) 32768]] in
  Nat.even (length data) = true
  /\ length channels = 2%nat
  /\ List.Forall (fun ch => length ch = 2%nat) channels
  /\ List.Forall
       (List.Forall (fun q => (- (1) <= q)%Q /\ (q < 1)%Q)) channels
  /\ (forall c i : nat,
        nth i (nth c channels []) 0%Q
        = if bool_decide (c < 2 /\ i < 2)%nat then
            toFloat (nth (i * 2 + c)%nat (int16s data) 0)
          else 0%Q).
Proof.
  apply (decodeAudioData_samples
           (mkBrowser (fun b => Some b) (fun _ _ _ => true))
           [0; 128; 255; 127; 1; 0; 254; 255]%N 24000 2
           [[Qmake (-32768) 32768; Qmake 1 32768];
            [Qmake 32767 32768; Qmake (-2) 32768]]).
  - repeat constructor.
  - reflexivity.
Defined.

(** ** ttsService.ts: one call, and many *)

Lemma promptText_spec (text : jsstring) (language : SupportedLanguage) :
  promptText text language
  = js "Speak the following " ++ languageName language
    ++ js " text naturally: " ++ text.
Proof. by destruct language. Qed.

Lemma voiceName_spec (language : SupportedLanguage) :
  voiceName language = VOICE_MAP language.
Proof. by destruct language. Qed.

(** X8.  One call of [playTextToSpeech].  For blank text nothing happens
    and the promise is fulfilled.  Otherwise the promise is rejected exactly
    when line 112 logs (once), and fulfilled exactly when one buffer has been
    started; a buffer is only ever started after the request of this call,
    whose prompt is the text prefixed by "Speak the following <language>
    text naturally: " with the enumeration's own name of the language, and
    whose voice is the one of [VOICE_MAP] (the fallback is never taken); an
    answer without audio data, or with empty data, is a rejection with
    nothing played. *)
Theorem playTextToSpeech_outcome (browser : Browser) (text : jsstring)
    (language : SupportedLanguage) (w : TtsWorld) (t : Tts) :
  let t' := (playTextToSpeech browser text language w t).1 in
  let r := (playTextToSpeech browser text language w t).2 in
  let request :=
    (VOICE_MAP language,
     js "Speak the following " ++ languageName language
     ++ js " text naturally: " ++ text) in
  (if forallb isWhiteSpace text then t' = t /\ r = Fulfilled
   else
     match r with
     | Fulfilled =>
         ttsErrors t' = ttsErrors t
         /\ requests t' = requests t ++ [request]
         /\ exists audioBuffer, played t' = played t ++ [audioBuffer]
     | Rejected =>
         ttsErrors t' = S (ttsErrors t)
         /\ played t' = played t
         /\ (requests t' = requests t
             \/ requests t' = requests t ++ [request])
     end)
  /\ match generated w with
     | Some None | Some (Some []) => played t' = played t
     | _ => True
     end.
Proof.
  cbn zeta. rewrite <- blank_spec.
  unfold playTextToSpeech.
  destruct (blank text); [by destruct (generated w) as [[[|]|]|]|].
  rewrite voiceName_spec, promptText_spec.
  destruct (audioContext t), (constructs w), (suspended w), (resumes w);
    cbn [andb negb ttsFail fst snd ttsErrors played requests audioContext
         constructed];
    try (split; [by auto|done]);
    destruct (generated w) as [[[|x b]|]|];
    cbn [accepted truthy ttsFail fst snd ttsErrors played requests];
    try (split; [by auto|done]);
    (destruct (decode browser (x :: b)) as [bytes|];
     [destruct (decodeAudioData browser bytes 24000 1) as [buffer|]|]);
    cbn [ttsFail fst snd ttsErrors played requests];
    by eauto.
Qed.

Lemma playTextToSpeech_keeps (browser : Browser) (text : jsstring)
    (language : SupportedLanguage) (w : TtsWorld) (t : Tts) :
  let t' := (playTextToSpeech browser text language w t).1 in
  let n := (if blank text then 0 else 1)%nat in
  (constructed t = (if audioContext t then 1 else 0)%nat ->
   constructed t' = (if audioContext t' then 1 else 0)%nat)
  /\ (audioContext t = true -> audioContext t' = true)
  /\ (length (played t') + ttsErrors t'
      = length (played t) + ttsErrors t + n)%nat
  /\ (length (played t) <= length (requests t) ->
      length (played t') <= length (requests t'))%nat
  /\ (List.Forall monoInRange (played t) ->
      List.Forall monoInRange (played t')).
Proof.
  cbn zeta. unfold playTextToSpeech.
  destruct (blank text); [cbn; repeat split; auto with lia|].
  assert (Hbuf : forall b bytes buffer,
            decode browser b = Some bytes ->
            decodeAudioData browser bytes 24000 1 = Some buffer ->
            monoInRange buffer).
  { intros b bytes buffer Hd Hb. apply decode_bytes in Hd.
    destruct (decodeAudioData_spec browser bytes 24000 1 buffer Hd Hb)
      as (_ & Hlen & _ & Hrange & _). by split. }
  destruct (audioContext t) eqn:Hctx, (constructs w), (suspended w),
    (resumes w);
    cbn [andb negb ttsFail fst snd ttsErrors played requests audioContext
         constructed];
    rewrite ?Hctx;
    try (repeat split; intros; rewrite ?length_app; cbn [length];
         auto with lia; fail).
  all: destruct (generated w) as [[[|x b]|]|];
    cbn [accepted truthy ttsFail fst snd ttsErrors played requests
         audioContext constructed];
    rewrite ?Hctx;
    try (repeat split; intros; rewrite ?length_app; cbn [length];
         auto with lia; fail).
  all: (destruct (decode browser (x :: b)) as [bytes|] eqn:Hd;
     [destruct (decodeAudioData browser bytes 24000 1) as [buffer|] eqn:Hb|]);
    cbn [ttsFail fst snd ttsErrors played requests audioContext constructed];
    rewrite ?Hctx;
    repeat split; intros; rewrite ?length_app; cbn [length];
    auto with lia.
  all: apply List.Forall_app; split; [done|].
  all: constructor; [by eapply Hbuf|constructor].
Qed.

(** X9.  Over any series of calls of [playTextToSpeech], starting with the
    module freshly loaded: the [AudioContext] constructor has succeeded at
    most once, and exactly once if the module holds a context; every call
    with non-blank text has ended in exactly one of a started buffer or a
    logged error, and blank calls in neither; no buffer was started without
    a request; and every buffer started has one channel with all samples in
    [-1, 1). *)
Theorem tts_calls_invariant (browser : Browser)
    (calls : list (jsstring * SupportedLanguage * TtsWorld)) :
  let t := speakAll browser calls noTts in
  constructed t = (if audioContext t then 1 else 0)%nat
  /\ (length (played t) + ttsErrors t = length (spoken calls))%nat
  /\ (length (played t) <= length (requests t))%nat
  /\ List.Forall monoInRange (played t).
Proof.
  cbn zeta.
  assert (Hgen : forall t,
    let t' := speakAll browser calls t in
    (constructed t = (if audioContext t then 1 else 0)%nat ->
     constructed t' = (if audioContext t' then 1 else 0)%nat)
    /\ (length (played t') + ttsErrors t'
        = length (played t) + ttsErrors t + length (spoken calls))%nat
    /\ (length (played t) <= length (requests t) ->
        length (played t') <= length (requests t'))%nat
    /\ (List.Forall monoInRange (played t) ->
        List.Forall monoInRange (played t'))).
  { induction calls as [|[[text language] w] calls IH]; intros t; cbn zeta.
    { cbn. repeat split; auto with lia. }
    cbn [speakAll foldl fst snd].
    fold (speakAll browser calls
            (playTextToSpeech browser text language w t).1).
    destruct (playTextToSpeech_keeps browser text language w t)
      as (H1 & _ & H3 & H4 & H5). cbn zeta in *.
    destruct (IH (playTextToSpeech browser text language w t).1)
      as (I1 & I3 & I4 & I5). cbn zeta in *.
    repeat split; auto.
    rewrite I3, H3. cbn [spoken List.filter fst snd].
    destruct (blank text); cbn [negb length]; fold (spoken calls); lia. }
  destruct (Hgen noTts) as (G1 & G3 & G4 & G5). cbn zeta in *.
  split; [by apply G1|]. split; [rewrite G3; cbn; lia|].
  split; [apply G4; cbn; lia|apply G5; constructor].
Qed.

(** ** OutputArea.tsx: one playback at a time *)

Lemma playTextToSpeech_logs (browser : Browser) (text : jsstring)
    (language : SupportedLanguage) (w : TtsWorld) (t : Tts) :
  ttsErrors (playTextToSpeech browser text language w t).1
  = match (playTextToSpeech browser text language w t).2 with
    | Fulfilled => ttsErrors t
    | Rejected => S (ttsErrors t)
    end.
Proof.
  unfold playTextToSpeech.
  destruct (blank text); [done|].
  destruct (audioContext t), (constructs w), (suspended w), (resumes w);
    cbn [andb negb ttsFail fst snd ttsErrors]; try done.
  all: destruct (generated w) as [[[|x b]|]|];
    cbn [accepted truthy ttsFail fst snd ttsErrors]; try done.
  all: destruct (decode browser (x :: b)) as [bytes|];
    [destruct (decodeAudioData browser bytes 24000 1) as [buffer|]|];
    done.
Qed.

Lemma panelStep_keeps (browser : Browser) (p : Panel) (e : PanelEvent) :
  let p' := panelStep browser p e in
  let n := (if isSettle e then 1 else 0)%nat in
  (isSpeaking p = bool_decide (is_Some (awaited p)) ->
   isSpeaking p' = bool_decide (is_Some (awaited p')))
  /\ (failedToPlay p = ttsErrors (tts p) ->
      failedToPlay p' = ttsErrors (tts p'))
  /\ (length (played (tts p')) + ttsErrors (tts p')
      <= length (played (tts p)) + ttsErrors (tts p) + n)%nat
  /\ (match awaited p with Some (tr, _) => tr <> [] | None => True end ->
      match awaited p' with Some (tr, _) => tr <> [] | None => True end).
Proof.
  cbn zeta. destruct e as [translation targetLang|w]; cbn [panelStep isSettle].
  - unfold handleSpeak.
    destruct translation as [|x tr]; cbn [truthy negb orb];
      [repeat split; auto with lia|].
    destruct (isSpeaking p) eqn:Hsp; cbn [isSpeaking awaited tts failedToPlay];
      rewrite ?Hsp; repeat split; auto with lia.
  - unfold playbackSettles.
    destruct (awaited p) as [[translation targetLang]|] eqn:Haw;
      [|rewrite ?Haw; repeat split; auto with lia].
    pose proof (playTextToSpeech_logs browser translation targetLang w (tts p))
      as Hlog.
    destruct (playTextToSpeech_keeps browser translation targetLang w (tts p))
      as (_ & _ & Hcount & _). cbn zeta in Hcount.
    destruct (playTextToSpeech browser translation targetLang w (tts p))
      as [t r].
    cbn [fst snd isSpeaking awaited tts failedToPlay] in *.
    repeat split; auto.
    + intros ->. by destruct r.
    + destruct (blank translation); lia.
Qed.

(** X10.  One panel, any sequence of clicks on its speak button and of
    settlements of the awaited playback: [isSpeaking] is true exactly while
    a call of [playTextToSpeech] is awaited, so a click made in the meantime
    starts nothing and every settlement, success or failure, frees the
    button; every rejection of the service has been caught and logged by the
    panel; the text being spoken is never empty; and buffers started plus
    errors never exceed the settlements. *)
Theorem speak_button_single_flight (browser : Browser)
    (events : list PanelEvent) :
  let p := runPanel browser events idlePanel in
  isSpeaking p = bool_decide (is_Some (awaited p))
  /\ failedToPlay p = ttsErrors (tts p)
  /\ (length (played (tts p)) + ttsErrors (tts p)
      <= length (List.filter isSettle events))%nat
  /\ match awaited p with Some (tr, _) => tr <> [] | None => True end.
Proof.
  cbn zeta.
  assert (Hgen : forall p,
    let p' := runPanel browser events p in
    (isSpeaking p = bool_decide (is_Some (awaited p)) ->
     isSpeaking p' = bool_decide (is_Some (awaited p')))
    /\ (failedToPlay p = ttsErrors (tts p) ->
        failedToPlay p' = ttsErrors (tts p'))
    /\ (length (played (tts p')) + ttsErrors (tts p')
        <= length (played (tts p)) + ttsErrors (tts p)
           + length (List.filter isSettle events))%nat
    /\ (match awaited p with Some (tr, _) => tr <> [] | None => True end ->
        match awaited p' with Some (tr, _) => tr <> [] | None => True end)).
  { induction events as [|e events IH]; intros p; cbn zeta.
    { cbn. repeat split; auto with lia. }
    cbn [runPanel foldl].
    fold (runPanel browser events (panelStep browser p e)).
    destruct (panelStep_keeps browser p e) as (H1 & H2 & H3 & H4).
    destruct (IH (panelStep browser p e)) as (I1 & I2 & I3 & I4).
    cbn zeta in *.
    split; [auto|]. split; [auto|].
    split; [|intros Hne; apply I4, H4, Hne].
    cbn [List.filter]. revert H3.
    destruct (isSettle e); cbn [length]; intros; lia. }
  destruct (Hgen idlePanel) as (G1 & G2 & G3 & G4). cbn zeta in *.
  split; [by apply G1|]. split; [by apply G2|].
  split; [|by apply G4]. cbn in G3. lia.
Qed.

(** ** InputArea.tsx *)

Lemma inputStep_sync (s : InputArea) (e : InputEvent) :
  localValue s = inputVal s ->
  localValue (inputStep s e) = inputVal (inputStep s e).
Proof.
  intros Hsync. destruct e as [v| |granted|recorder fails|recorder answer];
    cbn [inputStep]; try done.
  - destruct (isRecording s) eqn:Hrec.
    + unfold stopRecording. destruct (mediaRecorderRef s); [|done].
      by rewrite Hrec.
    + by destruct granted.
  - by destruct (recorders s !! recorder), fails.
  - destruct (recorders s !! recorder); [|done].
    destruct (transcribeAudio answer) as [text|]; [|done].
    by destruct (truthy text).
Qed.

Lemma inputStep_recorder (s : InputArea) (e : InputEvent) :
  (isRecording s = true -> exists recorder,
     mediaRecorderRef s = Some recorder
     /\ (recorder < length (recorders s))%nat) ->
  isRecording (inputStep s e) = true ->
  exists recorder,
    mediaRecorderRef (inputStep s e) = Some recorder
    /\ (recorder < length (recorders (inputStep s e)))%nat.
Proof.
  intros Hinv. destruct e as [v| |granted|recorder fails|recorder answer];
    cbn [inputStep]; try done.
  - destruct (isRecording s) eqn:Hrec.
    + destruct (Hinv eq_refl) as (r & Hr & _).
      unfold stopRecording. rewrite Hr, Hrec. discriminate.
    + destruct granted; [|by rewrite Hrec]. intros _.
      exists (length (recorders s)). cbn. rewrite length_app. cbn.
      split; [done|lia].
  - by destruct (recorders s !! recorder), fails.
  - destruct (recorders s !! recorder); [|done].
    destruct (transcribeAudio answer) as [text|]; [|done].
    by destruct (truthy text).
Qed.

(** X11.  Whatever the user does (typing, Clear, the microphone button,
    recordings that stop, transcriptions that come back or fail), the text
    box and the parent agree: [localValue] equals the [inputVal] that is
    debounced and translated.  And while [isRecording] is set, the recorder
    that [stopRecording] will stop exists. *)
Theorem input_area_in_sync (events : list InputEvent) :
  let s := runInput events initialInput in
  localValue s = inputVal s
  /\ (if isRecording s then
        exists recorder,
          mediaRecorderRef s = Some recorder
          /\ (recorder < length (recorders s))%nat
      else True).
Proof.
  cbn zeta.
  assert (Hgen : forall s,
    localValue s = inputVal s ->
    (isRecording s = true -> exists recorder,
       mediaRecorderRef s = Some recorder
       /\ (recorder < length (recorders s))%nat) ->
    localValue (runInput events s) = inputVal (runInput events s)
    /\ (isRecording (runInput events s) = true -> exists recorder,
          mediaRecorderRef (runInput events s) = Some recorder
          /\ (recorder < length (recorders (runInput events s)))%nat)).
  { induction events as [|e events IH]; intros s Hsync Hrec; [done|].
    cbn [runInput foldl]. fold (runInput events (inputStep s e)).
    apply IH; [by apply inputStep_sync|by apply inputStep_recorder]. }
  destruct (Hgen initialInput) as [Hsync Hrec]; [done|discriminate|].
  split; [done|]. destruct (isRecording _); [by apply Hrec|done].
Qed.

(** X12.  A transcription that comes back with a non-empty text puts into
    the box (and hands to the parent) the text that was in the box when its
    recording started, followed by the transcript, with one space between
    them unless the box was empty then; what the box holds now plays no
    part.  A transcription without text changes nothing in the box.  Either
    way [isTranscribing] is cleared; when [transcribeAudio] rejects, nothing
    changes at all. *)
Theorem dictation_appends (s : InputArea) (recorder : nat)
    (captured : jsstring) (x : N) (text : jsstring) :
  recorders s !! recorder = Some captured ->
  let s' := inputStep s (Transcribed recorder (Some (Some (x :: text)))) in
  inputVal s' = localValue s'
  /\ inputVal s'
     = (match captured with
        | [] => x :: text
        | _ :: _ => captured ++ 32%N :: x :: text
        end)
  /\ captured `prefix_of` inputVal s'
  /\ (x :: text) `suffix_of` inputVal s'
  /\ isTranscribing s' = false
  /\ inputStep s (Transcribed recorder (Some None))
     = setIsTranscribing false s
  /\ inputStep s (Transcribed recorder (Some (Some [])))
     = setIsTranscribing false s
  /\ inputStep s (Transcribed recorder None) = s.
Proof.
  intros Hrec. cbn zeta. cbn [inputStep]. rewrite Hrec.
  cbn [transcribeAudio accepted truthy setBoth setIsTranscribing inputVal
       localValue isTranscribing].
  unfold withTranscript.
  destruct captured as [|c captured]; cbn [truthy].
  - repeat split; [apply prefix_nil|done].
  - repeat split.
    + by apply prefix_app_r.
    + change (js " " ++ x :: text) with ([32%N] ++ x :: text).
      rewrite app_assoc. by apply suffix_app_r.
Qed.

Lemma dictation_appends_witness :
  let s :=
    runInput [Typed (js "hola"); MicClicked true; ClearClicked;
              MicClicked true; RecorderStopped 0 false] initialInput in
  let s' := inputStep s (Transcribed 0 (Some (Some (js "mundo")))) in
  inputVal s' = localValue s'
  /\ inputVal s' = js "hola mundo"
  /\ js "hola" `prefix_of` inputVal s'
  /\ js "mundo" `suffix_of` inputVal s'
  /\ isTranscribing s' = false
  /\ inputStep s (Transcribed 0 (Some None)) = setIsTranscribing false s
  /\ inputStep s (Transcribed 0 (Some (Some [])))
     = setIsTranscribing false s
  /\ inputStep s (Transcribed 0 None) = s.
Proof.
  apply (dictation_appends
           (runInput [Typed (js "hola"); MicClicked true; ClearClicked;
                      MicClicked true; RecorderStopped 0 false] initialInput)
           0 (js "hola") 109%N (js "undo")).
  reflexivity.
Defined.

Lemma inputStep_transcribing (s : InputArea) (e : InputEvent) :
  completes e = false -> isTranscribing s = true ->
  isTranscribing (inputStep s e) = true.
Proof.
  intros He Hon.
  destruct e as [v| |granted|recorder fails|recorder [answer|]];
    cbn [inputStep]; try done.
  - destruct (isRecording s) eqn:Hrec.
    + unfold stopRecording. destruct (mediaRecorderRef s); [|done].
      by rewrite Hrec.
    + by destruct granted.
  - cbn in He. subst fails. by destruct (recorders s !! recorder).
  - by destruct (recorders s !! recorder).
Qed.

(** X13.  Once [isTranscribing] is set, it stays set through everything
    but a transcription that completes or a recorder stop whose [FileReader]
    setup throws: typing, Clear, microphone clicks, ordinary recorder stops
    and, in particular, a rejected [transcribeAudio] leave it up, and with it
    the text box and the microphone button stay disabled. *)
Theorem transcribing_needs_completion (events : list InputEvent)
    (s : InputArea) :
  existsb completes events = false ->
  isTranscribing s = true ->
  isTranscribing (runInput events s) = true.
Proof.
  revert s. induction events as [|e events IH]; intros s Hnone Hon; [done|].
  cbn [existsb] in Hnone. apply orb_false_elim in Hnone as [He Hnone].
  cbn [runInput foldl]. fold (runInput events (inputStep s e)).
  apply IH; [done|]. by apply inputStep_transcribing.
Qed.

Lemma transcribing_needs_completion_witness :
  isTranscribing
    (runInput [Transcribed 0 None; ClearClicked; Typed (js "x");
               MicClicked true]
       (runInput [MicClicked true; MicClicked true; RecorderStopped 0 false]
          initialInput))
  = true.
Proof.
  apply (transcribing_needs_completion
           [Transcribed 0 None; ClearClicked; Typed (js "x");
            MicClicked true]
           (runInput [MicClicked true; MicClicked true; RecorderStopped 0 false]
              initialInput));
    reflexivity.
Defined.
